(** * pathvector: configuration loading and schema documentation

    A shallow embedding of [config.go]: the configuration schema (the struct
    declarations with their tags), [loadConfig] and [documentConfigTypes].

    [loadConfig] drives three reflection-based libraries over the schema
    (yaml.v2, go-playground/validator, creasty/defaults) and Go's [net]
    package.  Their part of the behaviour is transcribed in the modules
    [yaml], [validator], [defaults] and [net] below, over one model of
    [reflect]: a type descriptor [rtype] carrying the struct tags, and
    dynamically typed values [value]. *)

From Stdlib Require Import Ascii String.
From stdpp Require Import gmap strings list fin_maps.

#[local] Set Warnings "-register-all".
#[local] Open Scope string_scope.
#[local] Open Scope list_scope.

(** ** Go strings

    A Go string is a sequence of bytes; so is a Rocq [string]. *)

Module gostrings.

(** [strings.HasPrefix]. *)
Fixpoint HasPrefix (s prefix : string) : bool :=
  match prefix, s with
  | EmptyString, _ => true
  | String p prefix', String c s' => if decide (c = p) then HasPrefix s' prefix' else false
  | String _ _, EmptyString => false
  end.

(** [strings.Contains]. *)
Fixpoint Contains (s substr : string) : bool :=
  HasPrefix s substr ||
  match s with
  | EmptyString => false
  | String _ s' => Contains s' substr
  end.

(** [strings.Replace s old new (-1)] for a non-empty [old]: every
    non-overlapping occurrence, from the left.  [skip] counts the bytes of
    a matched [old] that are still to be dropped. *)
Fixpoint replace_from (skip : nat) (s old new : string) : string :=
  match s with
  | EmptyString => EmptyString
  | String c s' =>
      match skip with
      | S k => replace_from k s' old new
      | O =>
          if HasPrefix s old
          then new +:+ replace_from (String.length old - 1) s' old new
          else String c (replace_from 0 s' old new)
      end
  end.

Definition Replace (s old new : string) : string := replace_from 0 s old new.

(** [strings.IndexByte]-style split: the text before the first [c] and the
    text after it, or [None] when [c] does not occur. *)
Fixpoint cut (c : ascii) (s : string) : option (string * string) :=
  match s with
  | EmptyString => None
  | String x s' =>
      if decide (x = c) then Some (EmptyString, s')
      else match cut c s' with
           | Some (before, after) => Some (String x before, after)
           | None => None
           end
  end.

End gostrings.

(** ** reflect: types with struct tags, and values *)

Module reflect.

(** A struct tag, as the list of its [key:"value"] pairs. *)
Definition StructTag : Type := list (string * string).

Fixpoint assoc {A} (k : string) (l : list (string * A)) : option A :=
  match l with
  | [] => None
  | (k', a) :: l' => if decide (k' = k) then Some a else assoc k l'
  end.

(** [tag.Get(key)]: the empty string when the tag has no such key. *)
Definition Get (key : string) (tag : StructTag) : string :=
  default "" (assoc key tag).

Inductive Kind :=
| KBool | KInt | KUint | KUint8 | KUint16 | KString
| KSlice | KMap | KPtr | KStruct.

#[global] Instance Kind_eq_dec : EqDecision Kind.
Proof. solve_decision. Defined.

(** The types that occur in the schema.  Every map of the schema is keyed
    by [string]. *)
Inductive rtype :=
| TBool | TInt | TUint | TUint8 | TUint16 | TString
| TSlice (elem : rtype)
| TMap (elem : rtype)
| TPtr (elem : rtype)
| TStruct (name : string) (fields : list StructField)
with StructField :=
| Field (Name : string) (Type_ : rtype) (Tag : StructTag).

Definition Name (f : StructField) : string := let 'Field n _ _ := f in n.
Definition Type_ (f : StructField) : rtype := let 'Field _ t _ := f in t.
Definition Tag (f : StructField) : StructTag := let 'Field _ _ g := f in g.

Definition kind (t : rtype) : Kind :=
  match t with
  | TBool => KBool | TInt => KInt | TUint => KUint | TUint8 => KUint8
  | TUint16 => KUint16 | TString => KString
  | TSlice _ => KSlice | TMap _ => KMap | TPtr _ => KPtr | TStruct _ _ => KStruct
  end.

(** [t.String()]; the structs are declared in package [main]. *)
Fixpoint String_ (t : rtype) : string :=
  match t with
  | TBool => "bool" | TInt => "int" | TUint => "uint" | TUint8 => "uint8"
  | TUint16 => "uint16" | TString => "string"
  | TSlice e => "[]" +:+ String_ e
  | TMap e => "map[string]" +:+ String_ e
  | TPtr e => "*" +:+ String_ e
  | TStruct name _ => "main." +:+ name
  end.

Definition fields (t : rtype) : list StructField :=
  match t with TStruct _ fs => fs | _ => [] end.

(** Values.  Every integer kind is a [VInt]; a nil slice, map or pointer
    is [None].  A pointer holds its pointee: the pointers of the schema
    ([map[string]*peer]) are each owned by one map entry, so a write through
    the pointer is an update of that entry. *)
Inductive value :=
| VBool (b : bool)
| VInt (n : Z)
| VString (s : string)
| VSlice (xs : option (list value))
| VMap (m : option (gmap string value))
| VPtr (p : option value)
| VStruct (fs : list (string * value)).

(** [reflect.Zero(t)]. *)
Fixpoint Zero (t : rtype) : value :=
  match t with
  | TBool => VBool false
  | TInt | TUint | TUint8 | TUint16 => VInt 0
  | TString => VString ""
  | TSlice _ => VSlice None
  | TMap _ => VMap None
  | TPtr _ => VPtr None
  | TStruct _ fs => VStruct ((λ f, (Name f, Zero (Type_ f))) <$> fs)
  end.

Fixpoint update {A} (k : string) (a : A) (l : list (string * A)) : list (string * A) :=
  match l with
  | [] => []
  | (k', a') :: l' =>
      if decide (k' = k) then (k', a) :: l' else (k', a') :: update k a l'
  end.

(** Reading and writing the field [name] of a struct value. *)
Definition get (name : string) (v : value) : value :=
  match v with
  | VStruct fs => default (VStruct []) (assoc name fs)
  | _ => VStruct []
  end.

Definition set (name : string) (x : value) (v : value) : value :=
  match v with
  | VStruct fs => VStruct (update name x fs)
  | _ => v
  end.

End reflect.

Import reflect.

Notation "v .[ name ]" := (get name v)
  (at level 1, left associativity, format "v .[ name ]").
Notation "v .[ name ::= x ]" := (set name x v)
  (at level 1, left associativity, format "v .[ name  ::=  x ]").

(** ** net: the functions of Go's package [net] that [loadConfig] calls

    Transcribed from the package as it stood when [config.go] was written
    (go1.15/go1.16: [ip.go], [parse.go]).  An [IP] is a byte slice; the
    parsers return [None] for Go's nil. *)

Module net.

#[local] Open Scope Z_scope.
Definition IP : Type := list Z.

Definition byte_of (c : ascii) : Z := Z.of_N (N_of_ascii c).

Definition big : Z := 0xFFFFFF.

(** [dtoi]: decimal to integer; the number, the characters consumed and
    success. *)
Fixpoint dtoi_from (n : Z) (i : nat) (s : string) : Z * nat * bool :=
  let stop := if decide (i = 0%nat) then (0, 0%nat, false) else (n, i, true) in
  match s with
  | EmptyString => stop
  | String c s' =>
      if (48 <=? byte_of c) && (byte_of c <=? 57) then
        let n' := n * 10 + (byte_of c - 48) in
        if big <=? n' then (big, i, false) else dtoi_from n' (S i) s'
      else stop
  end.

Definition dtoi (s : string) : Z * nat * bool := dtoi_from 0 0%nat s.

(** [xtoi]: hexadecimal to integer. *)
Definition hex_digit (c : ascii) : option Z :=
  let b := byte_of c in
  if (48 <=? b) && (b <=? 57) then Some (b - 48)
  else if (97 <=? b) && (b <=? 102) then Some (b - 97 + 10)
  else if (65 <=? b) && (b <=? 70) then Some (b - 65 + 10)
  else None.

Fixpoint xtoi_from (n : Z) (i : nat) (s : string) : Z * nat * bool :=
  let stop := if decide (i = 0%nat) then (0, i, false) else (n, i, true) in
  match s with
  | EmptyString => stop
  | String c s' =>
      match hex_digit c with
      | Some d =>
          let n' := n * 16 + d in
          if big <=? n' then (0, i, false) else xtoi_from n' (S i) s'
      | None => stop
      end
  end.

Definition xtoi (s : string) : Z * nat * bool := xtoi_from 0 0%nat s.

(** [s[c:]]. *)
Fixpoint from (c : nat) (s : string) : string :=
  match c, s with
  | S c', String _ s' => from c' s'
  | _, _ => s
  end.

Definition v4InV6Prefix : list Z := [0; 0; 0; 0; 0; 0; 0; 0; 0; 0; 0xff; 0xff].

(** [IPv4(a, b, c, d)]: the 16-byte form of an IPv4 address. *)
Definition IPv4 (p : list Z) : IP := v4InV6Prefix ++ p.

(** The loop of [parseIPv4]: [todo] octets are still to be read, [p]
    holds the octets read so far. *)
Fixpoint parseIPv4_octets (todo : nat) (p : list Z) (s : string) : option IP :=
  match todo with
  | O => if decide (s = "") then Some (IPv4 p) else None
  | S todo' =>
      match s with
      | EmptyString => None (* missing octets *)
      | String c0 rest =>
          let after_dot :=
            if decide (p = []) then Some s
            else if decide (c0 = "."%char) then Some rest else None in
          match after_dot with
          | None => None
          | Some s1 =>
              let '(n, c, ok) := dtoi s1 in
              if negb ok || (0xFF <? n) then None
              else parseIPv4_octets todo' (p ++ [n]) (from c s1)
          end
      end
  end.

Definition parseIPv4 (s : string) : option IP := parseIPv4_octets 4 [] s.

(** The loop of [parseIPv6].  [ip] holds the [i] bytes filled so far and
    [groups] counts the 16-bit groups still free, so the loop condition
    [i < IPv6len] is [groups > 0].  The result is [None] where the source
    returns nil, and the state at the loop's exit otherwise. *)
Fixpoint parseIPv6_groups (groups : nat) (s : string) (ip : list Z)
    (ellipsis : option nat) : option (string * list Z * option nat) :=
  match groups with
  | O => Some (s, ip, ellipsis)
  | S groups' =>
      let i := length ip in
      let '(n, c, ok) := xtoi s in
      if negb ok || (0xFFFF <? n) then None
      else if decide (String.get c s = Some "."%char) then
        (* trailing IPv4 *)
        if decide (ellipsis = None ∧ i ≠ 12%nat) then None
        else if decide (16 < i + 4)%nat then None
        else match parseIPv4 s with
             | None => None
             | Some ip4 => Some ("", ip ++ drop 12 ip4, ellipsis)
             end
      else
        let ip := ip ++ [Z.shiftr n 8 `mod` 256; n `mod` 256] in
        let i := (i + 2)%nat in
        match from c s with
        | EmptyString => Some ("", ip, ellipsis)
        | String c0 EmptyString => None
        | String c0 (String c1 s2 as s1) =>
            if decide (c0 ≠ ":"%char) then None
            else if decide (c1 = ":"%char) then
              match ellipsis with
              | Some _ => None
              | None =>
                  if decide (s2 = "") then Some ("", ip, Some i)
                  else parseIPv6_groups groups' s2 ip (Some i)
              end
            else parseIPv6_groups groups' s1 ip ellipsis
        end
  end.

(** After the loop: the whole string must be used, and the ellipsis
    expands to the missing zero bytes. *)
Definition parseIPv6_finish (st : string * list Z * option nat) : option IP :=
  let '(s, ip, ellipsis) := st in
  if decide (s ≠ "") then None
  else if decide (length ip < 16)%nat then
    match ellipsis with
    | None => None
    | Some e => Some (take e ip ++ replicate (16 - length ip)%nat 0 ++ drop e ip)
    end
  else match ellipsis with
       | Some _ => None
       | None => Some ip
       end.

Definition parseIPv6 (s : string) : option IP :=
  match s with
  | String ":" (String ":" s') =>
      if decide (s' = "") then Some (replicate 16 0)
      else parseIPv6_groups 8 s' [] (Some 0%nat) ≫= parseIPv6_finish
  | _ => parseIPv6_groups 8 s [] None ≫= parseIPv6_finish
  end.

(** [ParseIP]: the first [.] or [:] of the string selects the parser. *)
Fixpoint ParseIP_scan (whole rest : string) : option IP :=
  match rest with
  | EmptyString => None
  | String c rest' =>
      if decide (c = "."%char) then parseIPv4 whole
      else if decide (c = ":"%char) then parseIPv6 whole
      else ParseIP_scan whole rest'
  end.

Definition ParseIP (s : string) : option IP := ParseIP_scan s s.

(** [ParseCIDR], first result: the address before the mask is applied.
    The [*IPNet] result is discarded by every caller in [config.go]. *)
Definition ParseCIDR (s : string) : option IP :=
  match gostrings.cut "/" s with
  | None => None
  | Some (addr, mask) =>
      let '(iplen, ip) :=
        match parseIPv4 addr with
        | Some ip => (4, Some ip)
        | None => (16, parseIPv6 addr)
        end in
      let '(n, i, ok) := dtoi mask in
      match ip with
      | Some ip =>
          if negb ok || negb (bool_decide (i = String.length mask))
             || (n <? 0) || (8 * iplen <? n)
          then None else Some ip
      | None => None
      end
  end.

(** [ip.To4()]: the 4-byte form, or [None] (nil) when [ip] is not an IPv4
    address. *)
Definition To4 (ip : IP) : option IP :=
  if decide (length ip = 4%nat) then Some ip
  else if decide (length ip = 16%nat ∧ take 10 ip = replicate 10 0
                  ∧ ip !! 10%nat = Some 0xff ∧ ip !! 11%nat = Some 0xff)
  then Some (drop 12 ip)
  else None.

End net.

(** ** yaml: strict decoding of a document into a value (gopkg.in/yaml.v2)

    The scanner and parser of the library are outside the model: a byte
    buffer is given by what they make of it, either a syntax error or the
    node tree of its first document (aliases and merge keys expanded, an
    empty stream read as a null document).  [decode.go] is transcribed for
    the kinds of the schema.  Positions ([line N:]) are not part of a node,
    so the messages are the library's without that prefix. *)

Module yaml.

#[local] Open Scope Z_scope.
(** What [resolve] made of a scalar.  For a float only the two integer
    conversions the decoder asks for are kept: [as_int] is [int64(f)] when
    [f <= MaxInt64] and the conversion is exact, [as_uint] is [uint64(f)]
    when [f <= MaxUint64]. *)
Inductive resolved :=
| RNull
| RBool (b : bool)
| RInt (n : Z)
| RFloat (as_int as_uint : option Z)
| RStr.

(** A mapping key is decoded into a [string] by every target of the
    schema, so it is kept as the text of its scalar. *)
Inductive node :=
| Scalar (text : string) (r : resolved)
| Sequence (children : list node)
| Mapping (children : list (string * node)).

Inductive blob :=
| Malformed (msg : string)
| Document (root : node).

Definition shortTag (n : node) : string :=
  match n with
  | Scalar _ RNull => "!!null"
  | Scalar _ (RBool _) => "!!bool"
  | Scalar _ (RInt _) => "!!int"
  | Scalar _ (RFloat _ _) => "!!float"
  | Scalar _ RStr => "!!str"
  | Sequence _ => "!!seq"
  | Mapping _ => "!!map"
  end.

(** [d.terror]: the message of a type mismatch. *)
Definition terror (n : node) (t : rtype) : string :=
  let value :=
    match n with
    | Scalar text _ =>
        if decide (10 < String.length text)%nat
        then " `" +:+ substring 0 7 text +:+ "...`"
        else " `" +:+ text +:+ "`"
    | _ => ""
    end in
  "cannot unmarshal " +:+ shortTag n +:+ value +:+ " into " +:+ String_ t.

(** [out.OverflowInt], [out.OverflowUint]. *)
Definition fits (t : rtype) (n : Z) : bool :=
  match t with
  | TInt => (- 2 ^ 63 <=? n) && (n <? 2 ^ 63)
  | TUint => (0 <=? n) && (n <? 2 ^ 64)
  | TUint8 => (0 <=? n) && (n <? 2 ^ 8)
  | TUint16 => (0 <=? n) && (n <? 2 ^ 16)
  | _ => false
  end.

(** [d.scalar] for a scalar that did not resolve to null: the decoded
    value, or [None] for a type error. *)
Definition scalar (t : rtype) (text : string) (r : resolved) : option value :=
  match t with
  | TString => Some (VString text)
  | TInt =>
      match r with
      | RInt n | RFloat (Some n) _ => if fits t n then Some (VInt n) else None
      | _ => None
      end
  | TUint | TUint8 | TUint16 =>
      match r with
      | RInt n | RFloat _ (Some n) => if fits t n then Some (VInt n) else None
      | _ => None
      end
  | TBool =>
      match r with
      | RBool b => Some (VBool b)
      | _ => None
      end
  | _ => None
  end.

(** [d.prepare]: nil pointers on the way to the target are allocated.
    [pointee t] is the type behind the pointers of [t], [pointers t v] the
    chain of fresh pointers to [v]. *)
Fixpoint pointee (t : rtype) : rtype :=
  match t with
  | TPtr e => pointee e
  | _ => t
  end.

Fixpoint pointers (t : rtype) (v : value) : value :=
  match t with
  | TPtr e => VPtr (Some (pointers e v))
  | _ => v
  end.

Definition lower (c : ascii) : ascii :=
  let n := N_of_ascii c in
  if ((65 <=? n) && (n <=? 90))%N then ascii_of_N (n + 32) else c.

Fixpoint ToLower (s : string) : string :=
  match s with
  | EmptyString => EmptyString
  | String c s' => String (lower c) (ToLower s')
  end.

(** [getStructInfo]: the key of a field is its [yaml] tag up to the first
    comma, or the lower-cased field name when that is empty; a field
    tagged [-] has no key.  (The flags after the comma, [inline] among
    them, do not occur in the schema.) *)
Definition key_of (f : StructField) : option string :=
  let tag := Get "yaml" (Tag f) in
  if decide (tag = "-") then None
  else
    let name := match gostrings.cut "," tag with
                | Some (name, _) => name
                | None => tag
                end in
    Some (if decide (name = "") then ToLower (Name f) else name).

(** [sinfo.FieldsMap[key]]. *)
Fixpoint fieldByKey (key : string) (fs : list StructField) : option StructField :=
  match fs with
  | [] => None
  | f :: fs' =>
      if decide (key_of f = Some key) then Some f else fieldByKey key fs'
  end.

(** What a decoding step yields: the value left in the target, whether the
    step was [good], and the type errors it recorded. *)
Definition decoded : Type := value * bool * list string.

Section loops.

Variable unmarshal : rtype → node → decoded.

(** [d.sequence], the loop over the children: the elements that decoded
    well, in order. *)
Fixpoint sequence (et : rtype) (cs : list node) : list value * list string :=
  match cs with
  | [] => ([], [])
  | c :: cs' =>
      let '(e, ok, errs1) := unmarshal et c in
      let '(es, errs2) := sequence et cs' in
      (if ok then e :: es else es, errs1 ++ errs2)
  end.

(** [d.mappingStruct], the loop over the pairs.  [out] is the struct
    being filled and [doneFields] the fields set so far: in strict
    mode a second value for a field is an error, and so is a key
    without a field. *)
Fixpoint mappingStruct (name : string) (fs : list StructField)
    (cs : list (string * node)) (out : list (string * value))
    (doneFields : list string) : list (string * value) * list string :=
  match cs with
  | [] => (out, [])
  | (key, c) :: cs' =>
      match fieldByKey key fs with
      | Some f =>
          if decide (Name f ∈ doneFields) then
            let '(out', errs) := mappingStruct name fs cs' out doneFields in
            (out', ("field " +:+ key +:+ " already set in type main." +:+ name) :: errs)
          else
            let '(v, _, errs1) := unmarshal (Type_ f) c in
            let '(out', errs2) :=
              mappingStruct name fs cs' (update (Name f) v out) (Name f :: doneFields) in
            (out', errs1 ++ errs2)
      | None =>
          let '(out', errs) := mappingStruct name fs cs' out doneFields in
          (out', ("field " +:+ key +:+ " not found in type main." +:+ name) :: errs)
      end
  end.

(** [d.mapping] into a map, the loop over the pairs; [d.setMapIndex]
    refuses a key that is already set. *)
Fixpoint mapping (et : rtype) (cs : list (string * node)) (out : gmap string value)
  : gmap string value * list string :=
  match cs with
  | [] => (out, [])
  | (key, c) :: cs' =>
      let '(e, ok, errs1) := unmarshal et c in
      if ok then
        match out !! key with
        | Some _ =>
            let '(out', errs2) := mapping et cs' out in
            (out', errs1 ++ ("key " +:+ key +:+ " already set in map") :: errs2)
        | None =>
            let '(out', errs2) := mapping et cs' (<[key := e]> out) in
            (out', errs1 ++ errs2)
        end
      else
        let '(out', errs2) := mapping et cs' out in
        (out', errs1 ++ errs2)
  end.

End loops.

(** [d.unmarshal] in strict mode, into a target that holds [Zero t]. *)
Fixpoint unmarshal (t : rtype) (n : node) {struct n} : decoded :=
  match n with
  | Scalar _ RNull => (Zero t, true, [])
  | Scalar text r =>
      match scalar (pointee t) text r with
      | Some v => (pointers t v, true, [])
      | None => (pointers t (Zero (pointee t)), false, [terror n (pointee t)])
      end
  | Sequence children =>
      match pointee t with
      | TSlice et =>
          let '(items, errs) := sequence unmarshal et children in
          (pointers t (VSlice (Some items)), true, errs)
      | _ => (pointers t (Zero (pointee t)), false, [terror n (pointee t)])
      end
  | Mapping children =>
      match pointee t with
      | TStruct name fs =>
          let '(out, errs) :=
            mappingStruct unmarshal name fs children ((λ f, (Name f, Zero (Type_ f))) <$> fs) [] in
          (pointers t (VStruct out), true, errs)
      | TMap et =>
          let '(out, errs) := mapping unmarshal et children ∅ in
          (pointers t (VMap (Some out)), true, errs)
      | _ => (pointers t (Zero (pointee t)), false, [terror n (pointee t)])
      end
  end.

Fixpoint Join (elems : list string) (sep : string) : string :=
  match elems with
  | [] => ""
  | [e] => e
  | e :: elems' => e +:+ sep +:+ Join elems' sep
  end.

Definition newline : string := String (ascii_of_nat 10) EmptyString.

(** [yaml.UnmarshalStrict(in, &out)] for [out] of type [t] holding its
    zero value: the value left in [out] and the error. *)
Definition UnmarshalStrict (input : blob) (t : rtype) : value * option string :=
  match input with
  | Malformed msg => (Zero t, Some ("yaml: " +:+ msg))
  | Document root =>
      let '(out, _, terrors) := unmarshal t root in
      match terrors with
      | [] => (out, None)
      | _ => (out, Some ("yaml: unmarshal errors:" +:+ newline +:+ "  "
                         +:+ Join terrors (newline +:+ "  ")))
      end
  end.

End yaml.

(** ** Calls into the libraries

    A call returns a value, returns an error, or panics. *)

Inductive call (A : Type) :=
| Done (a : A)
| Failed (err : string)
| Panicked (msg : string).
Arguments Done {A} a.
Arguments Failed {A} err.
Arguments Panicked {A} msg.

(** ** validator: [validate.Struct] (go-playground/validator v10)

    A struct is validated field by field.  The rules of a field's
    [validate] tag run in order and the first that fails is reported; a
    field without a tag is entered when it is itself a struct.  Slices and
    maps are entered only under a [dive] rule, which the schema does not
    use.  The rules transcribed are those the schema names: [required],
    [ip] and [cidr]. *)

Module validator.

(** [strings.Split(tag, ",")]. *)
Fixpoint rules_from (cur : string) (s : string) : list string :=
  match s with
  | EmptyString => [cur]
  | String c s' =>
      if decide (c = ","%char) then cur :: rules_from "" s'
      else rules_from (cur +:+ String c EmptyString) s'
  end.

Definition rules (tag : string) : list string :=
  if decide (tag = "") then [] else rules_from "" tag.

(** [hasValue], the [required] rule. *)
Definition hasValue (field : value) : bool :=
  match field with
  | VSlice xs => bool_decide (is_Some xs)
  | VMap m => bool_decide (is_Some m)
  | VPtr p => bool_decide (is_Some p)
  | VBool b => b
  | VInt n => negb (n =? 0)%Z
  | VString s => negb (bool_decide (s = ""))
  | VStruct _ => true
  end.

(** [field.String()]: only a string value is its own text. *)
Definition text (t : rtype) (field : value) : string :=
  match field with
  | VString s => s
  | _ => "<" +:+ String_ t +:+ " Value>"
  end.

Definition holds (rule : string) (t : rtype) (field : value) : bool :=
  if decide (rule = "required") then hasValue field
  else if decide (rule = "ip") then bool_decide (is_Some (net.ParseIP (text t field)))
  else if decide (rule = "cidr") then bool_decide (is_Some (net.ParseCIDR (text t field)))
  else false.

Definition fieldError (ns name rule : string) : string :=
  "Key: '" +:+ ns +:+ name +:+ "' Error:Field validation for '" +:+ name
  +:+ "' failed on the '" +:+ rule +:+ "' tag".

(** The first rule of [rs] that [field] breaks. *)
Fixpoint broken (rs : list string) (t : rtype) (field : value) : option string :=
  match rs with
  | [] => None
  | r :: rs' => if holds r t field then broken rs' t field else Some r
  end.

(** [v.validateStruct]: the errors of the fields of [current], whose
    namespace is [ns]. *)
Section fields.

Variable validateStruct : string → rtype → value → list string.

Fixpoint validateFields (ns : string) (fs : list StructField) (current : value)
  : list string :=
  match fs with
  | [] => []
  | f :: fs' =>
      match Type_ f with
      | TStruct _ _ =>
          validateStruct (ns +:+ Name f +:+ ".") (Type_ f) (current.[Name f])
          ++ validateFields ns fs' current
      | _ =>
          match broken (rules (Get "validate" (Tag f))) (Type_ f) (current.[Name f]) with
          | Some r => fieldError ns (Name f) r :: validateFields ns fs' current
          | None => validateFields ns fs' current
          end
      end
  end.

End fields.

Fixpoint validateStruct (ns : string) (t : rtype) (current : value) : list string :=
  match t with
  | TStruct _ fs => validateFields validateStruct ns fs current
  | _ => []
  end.

Definition type_name (t : rtype) : string :=
  match t with TStruct name _ => name | _ => "" end.

(** [validate.Struct(&s)] for [s] of type [t]: the error, if any. *)
Definition Struct (t : rtype) (s : value) : option string :=
  match validateStruct (type_name t +:+ ".") t s with
  | [] => None
  | errs => Some (yaml.Join errs yaml.newline)
  end.

End validator.

(** ** defaults: [defaults.Set] (creasty/defaults v1.5)

    A field is initialised from its [default] tag when it holds its zero
    value; nested structs and the elements of slices are entered, maps are
    not.  The literals of the schema are booleans, plain decimal numbers
    and strings, on fields of those kinds; a literal in another base, or a
    JSON literal on a slice, map or struct, is outside this transcription
    and reported as unparsable. *)

Module defaults.

(** [strconv.ParseBool]. *)
Definition ParseBool (s : string) : option bool :=
  if decide (s ∈ ["1"; "t"; "T"; "TRUE"; "true"; "True"]) then Some true
  else if decide (s ∈ ["0"; "f"; "F"; "FALSE"; "false"; "False"]) then Some false
  else None.

Fixpoint decimal (acc : Z) (s : string) : option Z :=
  match s with
  | EmptyString => Some acc
  | String c s' =>
      let b := net.byte_of c in
      if ((48 <=? b) && (b <=? 57))%Z then decimal (acc * 10 + (b - 48)) s' else None
  end.

(** [strconv.ParseUint(s, 0, bitSize)] and [strconv.ParseInt(s, 0, bitSize)]
    on decimal literals. *)
Definition ParseUint (s : string) (bitSize : Z) : option Z :=
  match s with
  | EmptyString => None
  | String "0" (String _ _) => None
  | _ => n ← decimal 0 s; if (n <? 2 ^ bitSize)%Z then Some n else None
  end.

Definition ParseInt (s : string) (bitSize : Z) : option Z :=
  match s with
  | String "-" s' =>
      n ← ParseUint s' bitSize; if (n <=? 2 ^ (bitSize - 1))%Z then Some (- n)%Z else None
  | String "+" s' =>
      n ← ParseUint s' bitSize; if (n <? 2 ^ (bitSize - 1))%Z then Some n else None
  | _ =>
      n ← ParseUint s bitSize; if (n <? 2 ^ (bitSize - 1))%Z then Some n else None
  end.

(** [isInitialValue]: deep equality with the zero value of the field's
    type. *)
Fixpoint isInitialValue (field : value) : bool :=
  match field with
  | VBool b => negb b
  | VInt n => (n =? 0)%Z
  | VString s => bool_decide (s = "")
  | VSlice xs => bool_decide (xs = None)
  | VMap m => bool_decide (m = None)
  | VPtr p => bool_decide (p = None)
  | VStruct fs => forallb (λ kv, isInitialValue kv.2) fs
  end.

Definition shouldInitializeField (t : rtype) (field : value) (tag : string) : bool :=
  match t, field with
  | TStruct _ _, _ => true
  | TPtr (TStruct _ _), VPtr (Some _) => true
  | TSlice _, VSlice (Some (_ :: _)) => true
  | _, _ => negb (bool_decide (tag = ""))
  end.

Definition unparsable (defaultVal : string) (t : rtype) : string :=
  "json: cannot unmarshal " +:+ defaultVal +:+ " into Go value of type " +:+ String_ t.

(** The first half of [setField]: a field holding its zero value is set
    from the literal. *)
Definition initialize (t : rtype) (defaultVal : string) (field : value) : call value :=
  match t with
  | TBool =>
      Done (match ParseBool defaultVal with Some b => VBool b | None => field end)
  | TInt =>
      Done (match ParseInt defaultVal 64 with Some n => VInt n | None => field end)
  | TUint =>
      Done (match ParseUint defaultVal 64 with Some n => VInt n | None => field end)
  | TUint8 =>
      Done (match ParseUint defaultVal 8 with Some n => VInt n | None => field end)
  | TUint16 =>
      Done (match ParseUint defaultVal 16 with Some n => VInt n | None => field end)
  | TString => Done (VString defaultVal)
  | TSlice _ =>
      if decide (defaultVal = "" ∨ defaultVal = "[]") then Done (VSlice (Some []))
      else Failed (unparsable defaultVal t)
  | TMap _ =>
      if decide (defaultVal = "" ∨ defaultVal = "{}") then Done (VMap (Some ∅))
      else Failed (unparsable defaultVal t)
  | TStruct _ _ =>
      if decide (defaultVal = "" ∨ defaultVal = "{}") then Done field
      else Failed (unparsable defaultVal t)
  | TPtr e => Done (VPtr (Some (Zero e)))
  end.

Section loops.

Variable setField : rtype → string → value → call value.

(** The loop of [Set] over the fields of the struct [v]. *)
Fixpoint Set_fields (fs : list StructField) (v : value) : call value :=
  match fs with
  | [] => Done v
  | f :: fs' =>
      let defaultVal := Get "default" (Tag f) in
      if decide (defaultVal = "-") then Set_fields fs' v
      else match setField (Type_ f) defaultVal (v.[Name f]) with
           | Done x => Set_fields fs' (v.[Name f ::= x])
           | Failed err => Failed err
           | Panicked msg => Panicked msg
           end
  end.

(** The loop of [setField] over the elements of a slice. *)
Fixpoint Set_elements (e : rtype) (defaultVal : string) (xs : list value)
  : call (list value) :=
  match xs with
  | [] => Done []
  | x :: xs' =>
      match setField e defaultVal x with
      | Done x' =>
          match Set_elements e defaultVal xs' with
          | Done xs'' => Done (x' :: xs'')
          | Failed err => Failed err
          | Panicked msg => Panicked msg
          end
      | Failed err => Failed err
      | Panicked msg => Panicked msg
      end
  end.

End loops.

(** [setField]: a field that should be initialised is set from the
    literal when it holds its zero value; then a pointer is followed, a
    struct is handed to [Set], and the elements of a slice are visited. *)
Fixpoint setField (t : rtype) (defaultVal : string) (field : value) {struct t}
  : call value :=
  if negb (shouldInitializeField t field defaultVal) then Done field
  else
    match (if isInitialValue field then initialize t defaultVal field
           else Done field) with
    | Done field =>
        match t with
        | TPtr e =>
            match field with
            | VPtr (Some x) =>
                match setField e defaultVal x with
                | Done x' => Done (VPtr (Some x'))
                | _ => Done field
                end
            | _ => Done field
            end
        | TStruct _ fs => Set_fields setField fs field
        | TSlice e =>
            match field with
            | VSlice (Some xs) =>
                match Set_elements setField e defaultVal xs with
                | Done xs' => Done (VSlice (Some xs'))
                | Failed err => Failed err
                | Panicked msg => Panicked msg
                end
            | _ => Done field
            end
        | _ => Done field
        end
    | other => other
    end.

(** [defaults.Set(ptr)] for [ptr] of type [*t]: the value [ptr] points
    to afterwards.  A nil [ptr] makes [reflect.ValueOf(ptr).Elem()] the
    zero [Value], on which [Type()] panics. *)
Definition Set_ (t : rtype) (ptr : value) : call value :=
  match ptr with
  | VPtr (Some v) =>
      match t with
      | TStruct _ _ => setField t "" v
      | _ => Failed "not a struct pointer"
      end
  | VPtr None => Panicked "reflect: call of reflect.Value.Type on zero Value"
  | _ => Failed "not a struct pointer"
  end.

End defaults.

(** ** The schema ([config.go], the struct declarations)

    Each struct type with its fields in declaration order and their tags. *)

Module main.

Definition peer : rtype := TStruct "peer" [
  Field "Description" TString
    [("yaml", "description"); ("description", "Peer description")];
  Field "Disabled" TBool
    [("yaml", "disabled"); ("description", "Should the sessions be disabled?")];
  Field "ASN" TUint
    [("yaml", "asn"); ("description", "Local ASN"); ("validate", "required")];
  Field "NeighborIPs" (TSlice TString)
    [("yaml", "neighbors"); ("description", "List of neighbor IPs"); ("validate", "required,ip")];
  Field "Prepends" TUint
    [("yaml", "prepends"); ("description", "Number of times to prepend local AS on export"); ("default", "0")];
  Field "LocalPref" TUint
    [("yaml", "local-pref"); ("description", "BGP local preference"); ("default", "100")];
  Field "Multihop" TBool
    [("yaml", "multihop"); ("description", "Should BGP multihop be enabled? (255 max hops)"); ("default", "false")];
  Field "Listen" TString
    [("yaml", "listen"); ("description", "BGP listen address")];
  Field "LocalPort" TUint16
    [("yaml", "local-port"); ("description", "Local TCP port"); ("default", "179")];
  Field "NeighborPort" TUint16
    [("yaml", "neighbor-port"); ("description", "Neighbor TCP port"); ("default", "179")];
  Field "Passive" TBool
    [("yaml", "passive"); ("description", "Should we listen passively?"); ("default", "false")];
  Field "NextHopSelf" TBool
    [("yaml", "next-hop-self"); ("description", "Should BGP next-hop-self be enabled?"); ("default", "false")];
  Field "BFD" TBool
    [("yaml", "bfd"); ("description", "Should BFD be enabled?"); ("default", "false")];
  Field "Communities" (TSlice TString)
    [("yaml", "communities"); ("description", "List of communities to add on export")];
  Field "LargeCommunities" (TSlice TString)
    [("yaml", "large-communities"); ("description", "List of large communities to add on export")];
  Field "Password" TString
    [("yaml", "password"); ("description", "BGP MD5 password")];
  Field "RSClient" TBool
    [("yaml", "rs-client"); ("description", "Should this peer be a route server client?"); ("default", "false")];
  Field "RRClient" TBool
    [("yaml", "rr-client"); ("description", "Should this peer be a route reflector client?"); ("default", "false")];
  Field "RemovePrivateASNs" TBool
    [("yaml", "remove-private-as"); ("description", "Should private ASNs be removed from path before exporting?"); ("default", "true")];
  Field "MPUnicast46" TBool
    [("yaml", "mp-unicast-46"); ("description", "Should this peer be configured with multiprotocol IPv4 and IPv6 unicast?"); ("default", "false")];
  Field "ASSet" TString
    [("yaml", "as-set"); ("description", "Peer's as-set for filtering")];
  Field "ImportLimit4" TUint
    [("yaml", "import-limit4"); ("description", "Maximum number of IPv4 prefixes to import"); ("default", "1000000")];
  Field "ImportLimit6" TUint
    [("yaml", "import-limit6"); ("description", "Maximum number of IPv6 prefixes to import"); ("default", "100000")];
  Field "EnforceFirstAS" TBool
    [("yaml", "enforce-first-as"); ("description", "Should we only accept routes who's first AS is equal to the configured peer address?"); ("default", "true")];
  Field "EnforcePeerNexthop" TBool
    [("yaml", "enforce-peer-nexthop"); ("description", "Should we only accept routes with a next hop equal to the configured neighbor address?"); ("default", "true")];
  Field "MaxPrefixTripAction" TString
    [("yaml", "max-prefix-action"); ("description", "What action should be taken when the max prefix limit is tripped?"); ("default", "disable")];
  Field "AllowBlackholeCommunity" TBool
    [("yaml", "allow-blackhole-community"); ("description", "Should this peer be allowed to send routes with the blackhole community?"); ("default", "false")];
  Field "FilterIRR" TBool
    [("yaml", "filter-irr"); ("description", "Should IRR filtering be applied?"); ("default", "true")];
  Field "FilterRPKI" TBool
    [("yaml", "filter-rpki"); ("description", "Should RPKI invalids be rejected?"); ("default", "true")];
  Field "FilterMaxPrefix" TBool
    [("yaml", "filter-max-prefix"); ("description", "Should max prefix filtering be applied?"); ("default", "true")];
  Field "FilterBogons" TBool
    [("yaml", "filter-bogons"); ("description", "Should bogon prefixes be rejected?"); ("default", "true")];
  Field "FilterTier1ASNs" TBool
    [("yaml", "filter-tier1-asns"); ("description", "Should paths containing 'Tier 1' ASNs be rejected (Peerlock Lite)?'"); ("default", "false")];
  Field "AutoImportLimits" TBool
    [("yaml", "auto-import-limits"); ("description", "Get import limits automatically from PeeringDB?"); ("default", "false")];
  Field "AutoASSet" TBool
    [("yaml", "auto-as-set"); ("description", "Get as-set automatically from PeeringDB?"); ("default", "false")];
  Field "Prefixes" (TSlice TString)
    [("yaml", "prefixes"); ("description", "Prefixes to accept")];
  Field "AnnounceDefault" TBool
    [("yaml", "announce-default"); ("description", "Should a default route be exported to this peer?"); ("default", "false")];
  Field "AnnounceSpecifics" TBool
    [("yaml", "announce-specifics"); ("description", "Should more specific routes be exported to this peer?"); ("default", "true")];
  Field "SessionGlobal" TString
    [("yaml", "session-global"); ("description", "Configuration to add to each session before any defined BGP protocols")];
  Field "PreImport" TString
    [("yaml", "pre-import"); ("description", "Configuration to add at the beginning of the import filter")];
  Field "PreExport" TString
    [("yaml", "pre-export"); ("description", "Configuration to add at the beginning of the export filter")];
  Field "PreImportFinal" TString
    [("yaml", "pre-import-final"); ("description", "Configuration to add immediately before the final accept/reject on import")];
  Field "PreExportFinal" TString
    [("yaml", "pre-export-final"); ("description", "Configuration to add immediately before the final accept/reject on export")];
  Field "ProtocolName" TString
    [("yaml", "-"); ("description", "-")];
  Field "Protocols" (TSlice TString)
    [("yaml", "-"); ("description", "-")];
  Field "PrefixSet4" (TSlice TString)
    [("yaml", "-"); ("description", "-")];
  Field "PrefixSet6" (TSlice TString)
    [("yaml", "-"); ("description", "-")]
].

Definition vrrpInstance : rtype := TStruct "vrrpInstance" [
  Field "State" TString
    [("yaml", "state"); ("description", "VRRP instance state ('primary' or 'backup')"); ("validate", "required")];
  Field "Interface" TString
    [("yaml", "interface"); ("description", "Interface to send VRRP packets on"); ("validate", "required")];
  Field "VRID" TUint
    [("yaml", "vrid"); ("description", "RFC3768 VRRP Virtual Router ID (1-255)"); ("validate", "required")];
  Field "Priority" TUint8
    [("yaml", "priority"); ("description", "RFC3768 VRRP Priority"); ("validate", "required")];
  Field "VIPs" (TSlice TString)
    [("yaml", "vips"); ("description", "List of virtual IPs"); ("validate", "required,cidr")];
  Field "VIPs4" (TSlice TString)
    [("yaml", "-"); ("description", "-")];
  Field "VIPs6" (TSlice TString)
    [("yaml", "-"); ("description", "-")]
].

Definition augments : rtype := TStruct "augments" [
  Field "Accept4" (TSlice TString)
    [("yaml", "accept4"); ("description", "List of BIRD protocols to import into the IPv4 table")];
  Field "Accept6" (TSlice TString)
    [("yaml", "accept6"); ("description", "List of BIRD protocols to import into the IPv6 table")];
  Field "Reject4" (TSlice TString)
    [("yaml", "reject4"); ("description", "List of BIRD protocols to not import into the IPv4 table")];
  Field "Reject6" (TSlice TString)
    [("yaml", "reject6"); ("description", "List of BIRD protocols to not import into the IPv6 table")];
  Field "Statics" (TMap TString)
    [("yaml", "statics"); ("description", "List of static routes to include in BIRD")];
  Field "Statics4" (TMap TString)
    [("yaml", "-"); ("description", "-")];
  Field "Statics6" (TMap TString)
    [("yaml", "-"); ("description", "-")]
].

Definition iface : rtype := TStruct "iface" [
  Field "Mtu" TUint
    [("yaml", "mtu"); ("description", "Interface MTU (Maximum Transmission Unit)"); ("default", "1500")];
  Field "XDPRTR" TBool
    [("yaml", "xdprtr"); ("description", "Should XDPRTR be loaded on this interface?"); ("default", "false")];
  Field "Addresses" (TSlice TString)
    [("yaml", "addresses"); ("description", "List of addresses to add to this interface")];
  Field "Dummy" TBool
    [("yaml", "dummy"); ("description", "Should a new dummy interface be created with this configuration?"); ("default", "false")];
  Field "Down" TBool
    [("yaml", "down"); ("description", "Should the interface be set to a down state?"); ("default", "false")]
].

Definition config : rtype := TStruct "config" [
  Field "ASN" TUint
    [("yaml", "asn"); ("description", "Autonomous System Number"); ("validate", "required")];
  Field "Prefixes" (TSlice TString)
    [("yaml", "prefixes"); ("description", "List of prefixes to announce")];
  Field "Communities" (TSlice TString)
    [("yaml", "communities"); ("description", "List of RFC1997 BGP communities")];
  Field "LargeCommunities" (TSlice TString)
    [("yaml", "large-communities"); ("description", "List of RFC8092 large BGP communities")];
  Field "RouterID" TString
    [("yaml", "router-id"); ("description", "Router ID (dotted quad notation)"); ("validate", "required")];
  Field "IRRServer" TString
    [("yaml", "irr-server"); ("description", "Internet routing registry server"); ("default", "rr.ntt.net")];
  Field "RTRServer" TString
    [("yaml", "rtr-server"); ("description", "RPKI-to-router server"); ("default", "rtr.rpki.cloudflare.com")];
  Field "RTRPort" TInt
    [("yaml", "rtr-port"); ("description", "RPKI-to-router port"); ("default", "8282")];
  Field "KeepFiltered" TBool
    [("yaml", "keep-filtered"); ("description", "Should filtered routes be kept in memory?"); ("default", "false")];
  Field "MergePaths" TBool
    [("yaml", "merge-paths"); ("description", "Should best and equivalent non-best routes be imported for ECMP?"); ("default", "false")];
  Field "Source4" TString
    [("yaml", "source4"); ("description", "Source IPv4 address")];
  Field "Source6" TString
    [("yaml", "source6"); ("description", "Source IPv6 address")];
  Field "AcceptDefault" TBool
    [("yaml", "accept-default"); ("description", "Should default routes be added to the bogon list?"); ("default", "false")];
  Field "BirdDirectory" TString
    [("yaml", "bird-directory"); ("description", "Directory to store BIRD configs"); ("default", "/etc/bird/")];
  Field "BirdSocket" TString
    [("yaml", "bird-socket"); ("description", "UNIX control socket for BIRD"); ("default", "/run/bird/bird.ctl")];
  Field "KeepalivedConfig" TString
    [("yaml", "keepalived-config"); ("description", "Configuration file for keepalived"); ("default", "/etc/keepalived.conf")];
  Field "WebUIFile" TString
    [("yaml", "web-ui-file"); ("description", "File to write web UI to"); ("default", "/run/wireframe.html")];
  Field "PeeringDbQueryTimeout" TUint
    [("yaml", "peeringdb-query-timeout"); ("description", "PeeringDB query timeout in seconds"); ("default", "10")];
  Field "IRRQueryTimeout" TUint
    [("yaml", "irr-query-timeout"); ("description", "IRR query timeout in seconds"); ("default", "30")];
  Field "Peers" (TMap (TPtr peer))
    [("yaml", "peers"); ("description", "BGP peer configuration")];
  Field "Interfaces" (TMap iface)
    [("yaml", "interfaces"); ("description", "Network interface configuration")];
  Field "VRRPInstances" (TSlice vrrpInstance)
    [("yaml", "vrrp"); ("description", "List of VRRP instances")];
  Field "Augments" augments
    [("yaml", "augments"); ("description", "Custom configuration options")];
  Field "Prefixes4" (TSlice TString)
    [("yaml", "-"); ("description", "-")];
  Field "Prefixes6" (TSlice TString)
    [("yaml", "-"); ("description", "-")]
].

End main.

(** ** Control flow of a function body

    A statement passes a state on to the next one, or ends the function:
    by a [return], or by a panic. *)

Inductive outcome :=
| Returns (c : option value) (err : option string)
| Panics (msg : string).

Inductive flow (S : Type) :=
| Next (s : S)
| Stop (o : outcome).
Arguments Next {S} s.
Arguments Stop {S} o.

#[global] Instance flow_bind : MBind flow := λ A B k m,
  match m with
  | Next s => k s
  | Stop o => Stop o
  end.

Definition Return {S} (c : option value) (err : option string) : flow S :=
  Stop (Returns c err).

Definition run (body : flow Empty_set) : outcome :=
  match body with
  | Next s => match s with end
  | Stop o => o
  end.

(** [for _, x := range xs { body }], with the statements after the loop
    reached only when no iteration ends the function. *)
Fixpoint for_range {A S} (xs : list A) (body : A → S → flow S) (s : S) : flow S :=
  match xs with
  | [] => Next s
  | x :: xs' =>
      match body x s with
      | Next s' => for_range xs' body s'
      | Stop o => Stop o
      end
  end.

(** Go values read at their static type. *)

Definition str (v : value) : string :=
  match v with VString s => s | _ => "" end.

Definition elements (v : value) : list value :=
  match v with VSlice (Some xs) => xs | _ => [] end.

Definition strings_of (v : value) : list string := str <$> elements v.

Definition entries (v : value) : list (string * value) :=
  match v with VMap (Some m) => map_to_list m | _ => [] end.

(** [append(slice, s)]. *)
Definition append (slice : value) (s : string) : value :=
  VSlice (Some (elements slice ++ [VString s])).

(** [m[k] = x]; the assignment panics on a nil map. *)
Definition assign (m : value) (k : string) (x : value) : flow value :=
  match m with
  | VMap (Some m) => Next (VMap (Some (<[k := x]> m)))
  | _ => Stop (Panics "assignment to entry in nil map")
  end.

(** The order in which [range] visits a map is not specified.  A
    [schedule] gives, for each of the three loops of [loadConfig] over a
    map, the order in which it visits the entries; it is [fair] when it
    visits exactly the entries of the map. *)
Record schedule := {
  peers_defaults : list (string * value) → list (string * value);
  statics : list (string * value) → list (string * value);
  peers_prefixes : list (string * value) → list (string * value)
}.

Definition fair (ρ : schedule) : Prop :=
  (∀ l, peers_defaults ρ l ≡ₚ l) ∧ (∀ l, statics ρ l ≡ₚ l) ∧ (∀ l, peers_prefixes ρ l ≡ₚ l).

Definition in_order : schedule :=
  {| peers_defaults := id; statics := id; peers_prefixes := id |}.

Definition reversed : schedule :=
  {| peers_defaults := reverse; statics := reverse; peers_prefixes := reverse |}.

(** A write through the [*peer] stored under [name] in [config.Peers]. *)
Definition write_peer (name : string) (pointee : value) (config : value) : value :=
  match config.["Peers"] with
  | VMap (Some m) => config.["Peers" ::= VMap (Some (<[name := VPtr (Some pointee)]> m))]
  | _ => config
  end.

(** [for _, peerData := range config.Peers { body }], for a [body] that
    reads and writes the peer through [peerData] only: [body] takes the
    pointer and yields what it points to afterwards. *)
Definition for_peers (order : list (string * value) → list (string * value))
    (body : value → flow value) (config : value) : flow value :=
  for_range (order (entries config.["Peers"]))
    (λ '(name, peerData) config,
       pointee ← body peerData; Next (write_peer name pointee config)) config.

(** ** loadConfig

    The blocks of the function body, in the order of the source, each
    under the comment that introduces it there. *)

(** [yaml.UnmarshalStrict(configBlob, &config)], on [var config config]. *)
Definition unmarshal_config (configBlob : yaml.blob) : flow value :=
  match yaml.UnmarshalStrict configBlob main.config with
  | (_, Some err) => Return None (Some ("yaml unmarshal: " +:+ err))
  | (config, None) => Next config
  end.

(** [validate.Struct(&config)]. *)
Definition validate_config (config : value) : flow () :=
  match validator.Struct main.config config with
  | Some err => Return None (Some ("validation: " +:+ err))
  | None => Next ()
  end.

(** [defaults.Set(&config)]. *)
Definition set_defaults (config : value) : flow value :=
  match defaults.Set_ main.config (VPtr (Some config)) with
  | Failed err => Return None (Some ("defaults: " +:+ err))
  | Panicked msg => Stop (Panics msg)
  | Done config => Next config
  end.

(** Set peer defaults *)
Definition set_peer_defaults (ρ : schedule) (config : value) : flow value :=
  for_peers (peers_defaults ρ)
    (λ peerData,
       match defaults.Set_ main.peer peerData with
       | Failed err => Return None (Some ("peer defaults: " +:+ err))
       | Panicked msg => Stop (Panics msg)
       | Done pointee => Next pointee
       end) config.

(** Parse origin routes by assembling OriginIPv{4,6} lists by address family *)
Definition parse_origin_routes (config : value) : flow value :=
  for_range (strings_of config.["Prefixes"])
    (λ prefix config,
       match net.ParseCIDR prefix with
       | None => Return None (Some ("invalid origin prefix: " +:+ prefix))
       | Some pfx =>
           if decide (net.To4 pfx = None) (* If IPv6 *)
           then Next config.["Prefixes4" ::= append config.["Prefixes4"] prefix]
           else (* If IPv4 *)
             Next config.["Prefixes6" ::= append config.["Prefixes6"] prefix]
       end) config.

(** Initialize static maps *)
Definition initialize_static_maps (config : value) : value :=
  let config := config.["Augments" ::= config.["Augments"].["Statics4" ::= VMap (Some ∅)]] in
  config.["Augments" ::= config.["Augments"].["Statics6" ::= VMap (Some ∅)]].

(** Parse static routes *)
Definition parse_static_routes (ρ : schedule) (config : value) : flow value :=
  for_range (statics ρ (entries config.["Augments"].["Statics"]))
    (λ '(prefix, nexthop) config,
       match net.ParseCIDR prefix with
       | None => Return None (Some ("invalid static prefix: " +:+ prefix))
       | Some pfx =>
           if decide (net.ParseIP (str nexthop) = None)
           then Return None (Some ("invalid static nexthop: " +:+ str nexthop))
           else if decide (net.To4 pfx = None) (* If IPv6 *)
           then m ← assign config.["Augments"].["Statics6"] prefix nexthop;
                Next config.["Augments" ::= config.["Augments"].["Statics6" ::= m]]
           else (* If IPv4 *)
                m ← assign config.["Augments"].["Statics4"] prefix nexthop;
                Next config.["Augments" ::= config.["Augments"].["Statics4" ::= m]]
       end) config.

(** Parse VRRP configs.  [vrrpInstance] is the loop variable, a copy of the
    element: what the body assigns to its fields is lost when the
    iteration ends, and [config.VRRPInstances] stays as it was. *)
Definition parse_vrrp_configs (config : value) : flow () :=
  for_range (elements config.["VRRPInstances"])
    (λ vrrpInstance _,
       (* Sort VIPs by address family *)
       vrrpInstance ← for_range (strings_of vrrpInstance.["VIPs"])
         (λ vip vrrpInstance,
            match net.ParseCIDR vip with
            | None => Return None (Some ("invalid VIP: " +:+ vip))
            | Some ip =>
                if decide (net.To4 ip = None) (* If IPv6 *)
                then Next vrrpInstance.["VIPs6" ::= append vrrpInstance.["VIPs6"] vip]
                else (* If IPv4 *)
                  Next vrrpInstance.["VIPs4" ::= append vrrpInstance.["VIPs4"] vip]
            end) vrrpInstance;

       (* Validate vrrpInstance *)
       if decide (str vrrpInstance.["State"] = "primary") then
         let vrrpInstance := vrrpInstance.["State" ::= VString "MASTER"] in
         Next ()
       else if decide (str vrrpInstance.["State"] = "backup") then
         let vrrpInstance := vrrpInstance.["State" ::= VString "BACKUP"] in
         Next ()
       else
         Return None (Some ("VRRP state must be 'primary' or 'backup', unexpected "
                            +:+ str vrrpInstance.["State"]))) ().

(** Build static prefix filters *)
Definition build_prefix_filters (ρ : schedule) (config : value) : flow value :=
  for_peers (peers_prefixes ρ)
    (λ peerData,
       match peerData with
       | VPtr (Some pointee) =>
           for_range (strings_of pointee.["Prefixes"])
             (λ prefix pointee,
                match net.ParseCIDR prefix with
                | None => Return None (Some ("invalid prefix: " +:+ prefix))
                | Some pfx =>
                    if decide (net.To4 pfx = None) (* If IPv6 *)
                    then Next pointee.["PrefixSet4" ::= append pointee.["PrefixSet4"] prefix]
                    else (* If IPv4 *)
                      Next pointee.["PrefixSet6" ::= append pointee.["PrefixSet6"] prefix]
                end) pointee
       | _ => Stop (Panics "invalid memory address or nil pointer dereference")
       end) config.

(** [loadConfig] loads a configuration file from a YAML file. *)
Definition loadConfig (ρ : schedule) (configBlob : yaml.blob) : outcome :=
  run (
    config ← unmarshal_config configBlob;
    _ ← validate_config config;
    config ← set_defaults config;
    config ← set_peer_defaults ρ config;
    config ← parse_origin_routes config;
    config ← parse_static_routes ρ (initialize_static_maps config);
    _ ← parse_vrrp_configs config;
    config ← build_prefix_filters ρ config;
    Return (Some config) None (* nil error *)
  ).

(** ** documentConfigTypes

    What a run printed, line by line, and how it ended: [log.Fatalf] logs
    its message and exits the process. *)

Inductive ending :=
| Finished
| Exited (msg : string)
| Panicked_in_reflect (msg : string).

Definition printed : Type := list string * ending.

(** One call after another, as long as the process lives. *)
Fixpoint in_turn (runs : list printed) : printed :=
  match runs with
  | [] => ([], Finished)
  | (lines, Finished) :: runs' =>
      let '(lines', e) := in_turn runs' in (lines ++ lines', e)
  | (lines, e) :: _ => (lines, e)
  end.

(** [fmt.Printf("| `%s` | `%s` | %s | %s | %s |\n", ...)]. *)
Definition row (key type fDefault validation description : string) : string :=
  "| `" +:+ key +:+ "` | `" +:+ type +:+ "` | " +:+ fDefault +:+ " | "
  +:+ validation +:+ " | " +:+ description +:+ " |".

Section fields.

Variable documentConfigTypes : rtype → printed.

(** The loop of [documentConfigTypes] over the fields: the rows printed,
    the queue [childTypes], and how the loop ended.  The queue holds, for
    each child type, what [documentConfigTypes] prints for it. *)
Fixpoint document_fields (fs : list StructField)
  : list string * list printed * ending :=
  match fs with
  | [] => ([], [], Finished)
  | field :: fs' =>
      let description := Get "description" (Tag field) in
      let key := Get "yaml" (Tag field) in
      let validation := Get "validate" (Tag field) in
      let fDefault := Get "default" (Tag field) in
      let fDefault :=
        if decide (fDefault ≠ "") then "`" +:+ fDefault +:+ "`" else fDefault in
      if decide (description = "") then
        ([], [], Exited ("code error: " +:+ Name field +:+ " doesn't have a description"))
      else if decide (description ≠ "-") then (* Ignore descriptions that are - *)
        let child :=
          if gostrings.Contains (String_ (Type_ field)) "main." (* If the type is a config struct *)
          then [documentConfigTypes
                  match Type_ field with
                  | TMap e | TSlice e => e (* Extract the element if the type is a map or slice *)
                  | _ => Type_ field
                  end]
          else [] in
        let '(rows, childTypes, e) := document_fields fs' in
        (row key (gostrings.Replace (String_ (Type_ field)) "main." "")
             fDefault validation description :: rows,
         child ++ childTypes, e)
      else document_fields fs'
  end.

End fields.

(** The source runs [documentConfigTypes] on the queued types after the
    loop; they are parts of [t], and here the call is made where the type
    is queued, so that the recursion is on the structure of [t]. *)
Fixpoint documentConfigTypes (t : rtype) : printed :=
  let heading :=
    [ "## " +:+ gostrings.Replace (String_ t) "main." "";
      "| Option | Type | Default | Validation | Description |";
      "|--------|------|---------|------------|-------------|" ] in
  (* Handle pointer types *)
  match (match t with TPtr e => e | _ => t end) with
  | TStruct _ fs =>
      let '(rows, childTypes, e) := document_fields documentConfigTypes fs in
      match e with
      | Finished =>
          let '(lines, e) := in_turn childTypes in
          (heading ++ rows ++ [""] ++ lines, e)
      | _ => (heading ++ rows, e)
      end
  | _ => (heading, Panicked_in_reflect "reflect: NumField of non-struct type")
  end.

Definition documentConfig : printed := documentConfigTypes main.config.

(** * Vocabulary of the properties

    What the statements below speak of: typing of values, the bodies of the
    loops of [loadConfig] as functions of their own, what a successful load
    is, and the documents of the examples. *)

Import yaml.

(** The names of the fields of a struct value. *)
Definition names (v : value) : list string :=
  match v with VStruct fs => fs.*1 | _ => [] end.

Section typing_loops.
Variable has_type : rtype → value → Prop.

Fixpoint fields_have_type (fs : list StructField) (vs : list (string * value)) : Prop :=
  match fs, vs with
  | [], [] => True
  | f :: fs', (k, x) :: vs' => Name f = k ∧ has_type (Type_ f) x ∧ fields_have_type fs' vs'
  | _, _ => False
  end.
End typing_loops.

Fixpoint has_type (t : rtype) (v : value) {struct t} : Prop :=
  match t, v with
  | TBool, VBool _ => True
  | (TInt | TUint | TUint8 | TUint16), VInt _ => True
  | TString, VString _ => True
  | TSlice e, VSlice xs => from_option (Forall (has_type e)) True xs
  | TMap e, VMap m => from_option (map_Forall (λ _, has_type e)) True m
  | TPtr e, VPtr p => from_option (has_type e) True p
  | TStruct _ fs, VStruct vs => fields_have_type has_type fs vs
  | _, _ => False
  end.

(** A type is well formed when the fields of each of its structs have
    distinct names, as the Go compiler requires. *)
Section wf_loops.
Variable wf : rtype → Prop.

Fixpoint wf_fields (fs : list StructField) : Prop :=
  match fs with
  | [] => True
  | f :: fs' => wf (Type_ f) ∧ wf_fields fs'
  end.
End wf_loops.

Fixpoint wf (t : rtype) : Prop :=
  match t with
  | TSlice e | TMap e | TPtr e => wf e
  | TStruct _ fs => NoDup (Name <$> fs) ∧ wf_fields wf fs
  | _ => True
  end.

Definition is_scalar (t : rtype) : bool :=
  match t with
  | TBool | TInt | TUint | TUint8 | TUint16 | TString => true
  | _ => false
  end.

Section scalar_defaults_loops.
Variable scalar_defaults : rtype → bool.

Fixpoint scalar_defaults_fields (fs : list StructField) : bool :=
  match fs with
  | [] => true
  | f :: fs' =>
      (bool_decide (Get "default" (Tag f) = "") || is_scalar (Type_ f))
      && scalar_defaults (Type_ f) && scalar_defaults_fields fs'
  end.
End scalar_defaults_loops.

Fixpoint scalar_defaults (t : rtype) : bool :=
  match t with
  | TSlice e | TMap e | TPtr e => scalar_defaults e
  | TStruct _ fs => scalar_defaults_fields scalar_defaults fs
  | _ => true
  end.

(** The node under [key] in a mapping. *)
Definition child (key : string) (n : node) : option node :=
  match n with
  | Mapping cs => assoc key cs
  | _ => None
  end.

Definition is_Next {S} (f : flow S) : Prop :=
  match f with Next _ => True | Stop _ => False end.

#[global] Instance is_Next_dec {S} (f : flow S) : Decision (is_Next f).
Proof. destruct f; simpl; apply _. Defined.

(** The state a statement passes on; meaningful when it does. *)
Definition passed (f : flow value) : value :=
  match f with Next s => s | Stop _ => VStruct [] end.

Definition by_family (on6 on4 msg : string) (prefix : string) (v : value) : flow value :=
  match net.ParseCIDR prefix with
  | None => Return None (Some (msg +:+ prefix))
  | Some pfx =>
      if decide (net.To4 pfx = None)
      then Next v.[on6 ::= append v.[on6] prefix]
      else Next v.[on4 ::= append v.[on4] prefix]
  end.

(** The family of a prefix, as [loadConfig] tells it: by [To4] of the
    address that [ParseCIDR] returns. *)
Definition is_IPv6 (prefix : string) : Prop :=
  ∃ pfx, net.ParseCIDR prefix = Some pfx ∧ net.To4 pfx = None.

Definition is_IPv4 (prefix : string) : Prop :=
  ∃ pfx, net.ParseCIDR prefix = Some pfx ∧ net.To4 pfx ≠ None.

#[global] Instance is_IPv6_dec prefix : Decision (is_IPv6 prefix).
Proof.
  unfold is_IPv6. destruct (net.ParseCIDR prefix) as [pfx|].
  - destruct (decide (net.To4 pfx = None)); [left; eauto | right].
    intros (? & ? & ?); simplify_eq.
  - right. intros (? & ? & ?); simplify_eq.
Defined.

#[global] Instance is_IPv4_dec prefix : Decision (is_IPv4 prefix).
Proof.
  unfold is_IPv4. destruct (net.ParseCIDR prefix) as [pfx|].
  - destruct (decide (net.To4 pfx = None)); [right | left; eauto].
    intros (? & ? & ?); simplify_eq.
  - right. intros (? & ? & ?); simplify_eq.
Defined.

(** The map of peers after a loop with body [body] has visited the entries
    [l]. *)
Definition visited (body : value → flow value)
    (l : list (string * value)) (m : gmap string value) : gmap string value :=
  foldl (λ m kv, <[kv.1 := VPtr (Some (passed (body kv.2)))]> m) m l.

Definition static_ok (prefix : string) (nexthop : value) : Prop :=
  is_Some (net.ParseCIDR prefix) ∧ is_Some (net.ParseIP (str nexthop)).

(** The body of the loop of [parse_static_routes]. *)
Definition static_route : string * value → value → flow value :=
  λ '(prefix, nexthop) config,
    match net.ParseCIDR prefix with
    | None => Return None (Some ("invalid static prefix: " +:+ prefix))
    | Some pfx =>
        if decide (net.ParseIP (str nexthop) = None)
        then Return None (Some ("invalid static nexthop: " +:+ str nexthop))
        else if decide (net.To4 pfx = None)
        then m ← assign config.["Augments"].["Statics6"] prefix nexthop;
             Next config.["Augments" ::= config.["Augments"].["Statics6" ::= m]]
        else m ← assign config.["Augments"].["Statics4"] prefix nexthop;
             Next config.["Augments" ::= config.["Augments"].["Statics4" ::= m]]
    end.

(** The entries of [l] of one family, added to a map. *)
Definition added (P : string → Prop) `{∀ k, Decision (P k)}
    (l : list (string * value)) (m : gmap string value) : gmap string value :=
  foldl (λ m kv, if decide (P kv.1) then <[kv.1 := kv.2]> m else m) m l.

(** The static routes of an [augments] value, as a map. *)
Definition map_of (v : value) : gmap string value :=
  match v with VMap (Some m) => m | _ => ∅ end.

(** The field of a struct type by its name. *)
Definition field_named (name : string) (t : rtype) : option StructField :=
  list_find (λ f, Name f = name) (fields t) ≫= λ '(_, f), Some f.

(** A failure returns no configuration and an error, or panics. *)
Definition failure (o : outcome) : Prop :=
  match o with
  | Returns None (Some _) | Panics _ => True
  | _ => False
  end.

Definition fails {S} (f : flow S) : Prop :=
  match f with Next _ => True | Stop o => failure o end.

(** [defaults.Set] on a peer, which does not fail. *)
Definition peer_defaults (pointee : value) : value :=
  match defaults.Set_fields defaults.setField (fields main.peer) pointee with
  | Done pointee' => pointee'
  | _ => pointee
  end.

(** The body of the loop of [set_peer_defaults]. *)
Definition set_peer_default (peerData : value) : flow value :=
  match defaults.Set_ main.peer peerData with
  | Failed err => Return None (Some ("peer defaults: " +:+ err))
  | Panicked msg => Stop (Panics msg)
  | Done pointee => Next pointee
  end.

(** The body of the loop of [build_prefix_filters]. *)
Definition build_prefix_filter (peerData : value) : flow value :=
  match peerData with
  | VPtr (Some pointee) =>
      for_range (strings_of pointee.["Prefixes"])
        (by_family "PrefixSet4" "PrefixSet6" "invalid prefix: ") pointee
  | _ => Stop (Panics "invalid memory address or nil pointer dereference")
  end.

(** The body of the loop of [parse_vrrp_configs]. *)
Definition parse_vrrp_config (vrrpInstance : value) : flow () :=
  vrrpInstance ← for_range (strings_of vrrpInstance.["VIPs"])
    (by_family "VIPs6" "VIPs4" "invalid VIP: ") vrrpInstance;
  if decide (str vrrpInstance.["State"] = "primary") then Next ()
  else if decide (str vrrpInstance.["State"] = "backup") then Next ()
  else Return None (Some ("VRRP state must be 'primary' or 'backup', unexpected "
                          +:+ str vrrpInstance.["State"])).

Definition shaped (c : value) : Prop :=
  names c = Name <$> fields main.config
  ∧ (∃ m, c.["Peers"] = VMap m)
  ∧ names c.["Augments"] = Name <$> fields main.augments.

(** What the two loops over the peers make of an entry of the map. *)
Definition with_defaults (peerData : value) : value :=
  VPtr (Some (passed (set_peer_default peerData))).

Definition with_prefix_sets (peerData : value) : value :=
  VPtr (Some (passed (build_prefix_filter peerData))).

Definition map_peers (f : value → value) (config : value) : value :=
  match config.["Peers"] with
  | VMap (Some m) => config.["Peers" ::= VMap (Some (f <$> m))]
  | _ => config
  end.

Definition with_static_maps (config : value) : value :=
  config.["Augments" ::=
    config.["Augments"]
      .["Statics4" ::= VMap (Some (filter (λ kv, is_IPv4 kv.1)
                                     (map_of config.["Augments"].["Statics"])))]
      .["Statics6" ::= VMap (Some (filter (λ kv, is_IPv6 kv.1)
                                     (map_of config.["Augments"].["Statics"])))]].

Record loading (root : yaml.node) (c0 c1 c3 cfg : value) : Prop := {
  decoded_without_errors : (yaml.unmarshal main.config root).2 = [];
  decoded_value : (yaml.unmarshal main.config root).1.1 = c0;
  validated : validator.Struct main.config c0 = None;
  defaulted : defaults.Set_fields defaults.setField (fields main.config) c0 = Done c1;
  peers_defaulted : ∀ name peerData,
    map_of c1.["Peers"] !! name = Some peerData → is_Next (set_peer_default peerData);
  origin_routes_parsed : parse_origin_routes (map_peers with_defaults c1) = Next c3;
  static_routes_parsed : ∀ prefix nexthop,
    map_of c3.["Augments"].["Statics"] !! prefix = Some nexthop → static_ok prefix nexthop;
  vrrp_configs_parsed :
    Forall (λ v, parse_vrrp_config v = Next ()) (elements c3.["VRRPInstances"]);
  prefix_filters_built : ∀ name peerData,
    map_of c3.["Peers"] !! name = Some peerData → is_Next (build_prefix_filter peerData);
  returned : cfg = map_peers with_prefix_sets (with_static_maps c3)
}.

Definition loads (configBlob : yaml.blob) (cfg : value) : Prop :=
  ∃ root c0 c1 c3, configBlob = yaml.Document root ∧ loading root c0 c1 c3 cfg.

(** ** Defaults, as the schema declares them *)

(** The value of the literal in the [default] tag of a field, for a field
    that has one; [defaults.Set] passes over a field tagged [-]. *)
Definition declared_default (f : StructField) : option value :=
  let defaultVal := Get "default" (Tag f) in
  if decide (defaultVal = "" ∨ defaultVal = "-") then None
  else match defaults.initialize (Type_ f) defaultVal (Zero (Type_ f)) with
       | Done x => Some x
       | _ => None
       end.

(** What a field that held [v] holds once the defaults are set: the
    declared default in place of a zero value, and [v] otherwise. *)
Definition defaulted_value (f : StructField) (v : value) : value :=
  match declared_default f with
  | Some d => if defaults.isInitialValue v then d else v
  | None => v
  end.

(** The node of the peer [name] in a document. *)
Definition peer_node (root : node) (name : string) : option node :=
  child "peers" root ≫= child name.

(** ** Keys without a field

    [has_undeclared_key t n]: somewhere in [n], read along the type [t], a
    mapping that is decoded into a struct has a key that is no key of a
    field of that struct. *)
Fixpoint has_undeclared_key (t : rtype) (n : node) {struct n} : bool :=
  match n with
  | Scalar _ _ => false
  | Sequence children =>
      match pointee t with
      | TSlice et => existsb (has_undeclared_key et) children
      | _ => false
      end
  | Mapping children =>
      match pointee t with
      | TStruct _ fs =>
          existsb (λ '(key, c),
                     match fieldByKey key fs with
                     | Some f => has_undeclared_key (Type_ f) c
                     | None => true
                     end) children
      | TMap et => existsb (λ '(_, c), has_undeclared_key et c) children
      | _ => false
      end
  end.

(** ** Reading the printed tables *)

(** The text between the first two backquotes of a row: its first column. *)
Definition first_column (line : string) : string :=
  match gostrings.cut "`" line with
  | Some (_, after) =>
      match gostrings.cut "`" after with
      | Some (key, _) => key
      | None => ""
      end
  | None => ""
  end.

(** A field has a row unless its description is [-]. *)
Definition documented (f : StructField) : Prop := Get "description" (Tag f) ≠ "-".

#[global] Instance documented_dec f : Decision (documented f).
Proof. unfold documented. apply _. Defined.

(** The first three lines of a table. *)
Definition heading (title : string) : list string :=
  [ "## " +:+ title;
    "| Option | Type | Default | Validation | Description |";
    "|--------|------|---------|------------|-------------|" ].

(** ** Documents *)

(** A document with origin prefixes, peers, static routes and a VRRP
    instance:
<<
asn: 65001
router-id: 192.0.2.1
prefixes: [192.0.2.0/24, 2001:db8::/32]
peers:
  upstream: {asn: 64500, local-pref: 0, prefixes: [198.51.100.0/24, 2001:db8:100::/48]}
  exchange: {asn: 64501, neighbors: [203.0.113.7]}
vrrp:
  - {state: primary, interface: eth0, vrid: 1, priority: 255, vips: [192.0.2.10/24]}
augments:
  statics: {203.0.113.0/24: 192.0.2.254, 2001:db8:200::/48: 2001:db8::1}
>> *)
Definition text (s : string) : node := Scalar s RStr.
Definition number (s : string) (n : Z) : node := Scalar s (RInt n).

Definition upstream : node := Mapping [
  ("asn", number "64500" 64500);
  ("local-pref", number "0" 0);
  ("prefixes", Sequence [text "198.51.100.0/24"; text "2001:db8:100::/48"])
].

Definition example : node := Mapping [
  ("asn", number "65001" 65001);
  ("router-id", text "192.0.2.1");
  ("prefixes", Sequence [text "192.0.2.0/24"; text "2001:db8::/32"]);
  ("peers", Mapping [
     ("upstream", upstream);
     ("exchange", Mapping [("asn", number "64501" 64501);
                           ("neighbors", Sequence [text "203.0.113.7"])])]);
  ("vrrp", Sequence [
     Mapping [("state", text "primary"); ("interface", text "eth0");
              ("vrid", number "1" 1); ("priority", number "255" 255);
              ("vips", Sequence [text "192.0.2.10/24"])]]);
  ("augments", Mapping [
     ("statics", Mapping [("203.0.113.0/24", text "192.0.2.254");
                          ("2001:db8:200::/48", text "2001:db8::1")])])
].

(** What [loadConfig] returns for [example], visiting the maps in order. *)
Definition example_config : value :=
  match loadConfig in_order (Document example) with
  | Returns (Some config) _ => config
  | _ => VStruct []
  end.

(** The peer [name] of a configuration. *)
Definition peer_of (config : value) (name : string) : value :=
  match map_of config.["Peers"] !! name with
  | Some (VPtr (Some pointee)) => pointee
  | _ => VStruct []
  end.

(** A document with one origin prefix, an IPv4 one:
<<
asn: 65001
router-id: 192.0.2.1
prefixes: [192.0.2.0/24]
>> *)
Definition one_prefix : node := Mapping [
  ("asn", number "65001" 65001);
  ("router-id", text "192.0.2.1");
  ("prefixes", Sequence [text "192.0.2.0/24"])
].

(** A document with one VRRP instance:
<<
asn: 65001
router-id: 192.0.2.1
vrrp:
  - {state: primary, interface: eth0, vrid: 1, priority: 255, vips: [192.0.2.10/24]}
>> *)
Definition one_vrrp : node := Mapping [
  ("asn", number "65001" 65001);
  ("router-id", text "192.0.2.1");
  ("vrrp", Sequence [
     Mapping [("state", text "primary"); ("interface", text "eth0");
              ("vrid", number "1" 1); ("priority", number "255" 255);
              ("vips", Sequence [text "192.0.2.10/24"])]])
].

(** A document with a peer that has no value:
<<
asn: 65001
router-id: 192.0.2.1
peers:
  upstream:
>> *)
Definition null_peer : node := Mapping [
  ("asn", number "65001" 65001);
  ("router-id", text "192.0.2.1");
  ("peers", Mapping [("upstream", Scalar "" RNull)])
].

(** A document with a misspelt key in a peer:
<<
asn: 65001
router-id: 192.0.2.1
peers:
  upstream: {asn: 64500, local-perf: 200}
>> *)
Definition misspelt : node := Mapping [
  ("asn", number "65001" 65001);
  ("router-id", text "192.0.2.1");
  ("peers", Mapping [("upstream", Mapping [("asn", number "64500" 64500);
                                           ("local-perf", number "200" 200)])])
].

(** ** Lists as sets *)

(** The lists [l4] and [l6] hold, between them, the elements of [l], and
    none is in both. *)
Definition partitions (l l4 l6 : list string) : Prop :=
  (∀ x, x ∈ l ↔ x ∈ l4 ∨ x ∈ l6) ∧ (∀ x, x ∈ l4 → x ∈ l6 → False).

(** * Facts about the model of [reflect] *)

Section assoc.
Context {A : Type}.
Implicit Types (l : list (string * A)) (k : string).

Lemma assoc_Some_elem k a l : assoc k l = Some a → (k, a) ∈ l.
Proof.
  induction l as [|[k' a'] l IH]; simpl; [done|].
  case_decide; intros; simplify_eq; [left | right; auto].
Qed.

Lemma assoc_is_Some k l : is_Some (assoc k l) ↔ k ∈ l.*1.
Proof.
  induction l as [|[k' a'] l IH]; simpl.
  - split; [by intros [? ?] | by intros ?%elem_of_nil].
  - case_decide; subst.
    + split; [left | eauto].
    + rewrite IH, elem_of_cons. split; [by right | by intros [?|?]].
Qed.

Lemma assoc_None k l : assoc k l = None ↔ k ∉ l.*1.
Proof. rewrite <- assoc_is_Some, eq_None_not_Some. done. Qed.

Lemma assoc_NoDup k a l : NoDup l.*1 → (k, a) ∈ l → assoc k l = Some a.
Proof.
  induction l as [|[k' a'] l IH]; simpl; [by intros _ ?%elem_of_nil|].
  intros [Hk Hl]%NoDup_cons [?|Hin]%elem_of_cons; simplify_eq.
  - by rewrite decide_True.
  - rewrite decide_False; [auto|]. intros ->. apply Hk.
    change k with (k, a).1. by apply list_elem_of_fmap_2.
Qed.

Lemma update_names k a l : (update k a l).*1 = l.*1.
Proof.
  induction l as [|[k' a'] l IH]; simpl; [done|].
  case_decide; simpl; [done | by f_equal].
Qed.

Lemma assoc_update_eq k a l : k ∈ l.*1 → assoc k (update k a l) = Some a.
Proof.
  induction l as [|[k' a'] l IH]; simpl; [by intros ?%elem_of_nil|].
  intros Hin. case_decide; simpl; subst.
  - by rewrite decide_True.
  - rewrite decide_False by done. apply IH.
    apply elem_of_cons in Hin as [?|?]; [done | done].
Qed.

Lemma assoc_update_ne k k' a l : k ≠ k' → assoc k' (update k a l) = assoc k' l.
Proof.
  intros Hne. induction l as [|[k0 a0] l IH]; simpl; [done|].
  case_decide; simpl; subst.
  - by rewrite !decide_False.
  - case_decide; auto.
Qed.

Lemma update_update k a b l : update k b (update k a l) = update k b l.
Proof.
  induction l as [|[k0 a0] l IH]; simpl; [done|].
  case_decide; simpl; subst.
  - by rewrite decide_True.
  - rewrite decide_False by done. by rewrite IH.
Qed.

Lemma update_absent k a l : k ∉ l.*1 → update k a l = l.
Proof.
  induction l as [|[k0 a0] l IH]; simpl; [done|].
  intros Hk. apply not_elem_of_cons in Hk as [? ?].
  rewrite decide_False by done. by rewrite IH.
Qed.
End assoc.

Lemma names_set v a x : names v.[a ::= x] = names v.
Proof. destruct v; simpl; auto using update_names. Qed.

Lemma get_set_eq v a x : a ∈ names v → v.[a ::= x].[a] = x.
Proof.
  destruct v; simpl; try by intros ?%elem_of_nil.
  intros Hin. by rewrite assoc_update_eq.
Qed.

Lemma get_set_ne v a b x : a ≠ b → v.[b ::= x].[a] = v.[a].
Proof. intros Hne. destruct v; simpl; try done. by rewrite assoc_update_ne. Qed.

Lemma set_set v a x y : v.[a ::= x].[a ::= y] = v.[a ::= y].
Proof. destruct v; simpl; try done. by rewrite update_update. Qed.

(** Induction on a type, with the hypothesis for the types of the fields of
    a struct. *)
Lemma rtype_ind' (P : rtype → Prop) :
  P TBool → P TInt → P TUint → P TUint8 → P TUint16 → P TString →
  (∀ e, P e → P (TSlice e)) →
  (∀ e, P e → P (TMap e)) →
  (∀ e, P e → P (TPtr e)) →
  (∀ name fs, Forall (λ f, P (Type_ f)) fs → P (TStruct name fs)) →
  ∀ t, P t.
Proof.
  intros HB HI HU HU8 HU16 HStr HS HM HP HT.
  fix IH 1. intros [| | | | | |e|e|e|name fs].
  - exact HB.
  - exact HI.
  - exact HU.
  - exact HU8.
  - exact HU16.
  - exact HStr.
  - apply HS, IH.
  - apply HM, IH.
  - apply HP, IH.
  - apply HT. induction fs as [|[n ty tag] fs IHfs]; constructor; [apply IH | apply IHfs].
Qed.

(** ** Typing of values *)

(** Fields are told apart by their names. *)
Lemma field_name_inj fs f f' :
  NoDup (Name <$> fs) → f ∈ fs → f' ∈ fs → Name f = Name f' → f = f'.
Proof.
  induction fs as [|f0 fs IH]; [by intros _ ?%elem_of_nil|].
  intros [Hf0 Hnd]%NoDup_cons [->|Hin]%elem_of_cons [->|Hin']%elem_of_cons Heq.
  - done.
  - destruct Hf0. rewrite Heq. by apply list_elem_of_fmap_2.
  - destruct Hf0. rewrite <- Heq. by apply list_elem_of_fmap_2.
  - by apply IH.
Qed.

Lemma wf_fields_Forall (P : rtype → Prop) fs :
  wf_fields P fs ↔ Forall (λ f, P (Type_ f)) fs.
Proof.
  induction fs as [|f fs IH]; simpl.
  - split; [constructor | done].
  - rewrite Forall_cons, IH. done.
Qed.

Lemma wf_field name fs f : wf (TStruct name fs) → f ∈ fs → wf (Type_ f).
Proof.
  intros [_ Hfs] Hin. apply wf_fields_Forall in Hfs.
  rewrite Forall_forall in Hfs. auto.
Qed.

Section fields_have_type.
Variable P : rtype → value → Prop.

Lemma fields_have_type_names fs vs :
  fields_have_type P fs vs → vs.*1 = Name <$> fs.
Proof.
  revert vs. induction fs as [|f fs IH]; intros [|[k x] vs]; simpl; try done.
  intros (-> & _ & ?). f_equal. auto.
Qed.

Lemma fields_have_type_update fs vs name x :
  fields_have_type P fs vs →
  (∀ f, f ∈ fs → Name f = name → P (Type_ f) x) →
  fields_have_type P fs (update name x vs).
Proof.
  revert vs. induction fs as [|f fs IH]; intros [|[k y] vs]; simpl; try done.
  intros (<- & Hy & Hvs) Hx. case_decide; simpl.
  - split_and!; [done | apply Hx; [left | done] | done].
  - split_and!; [done | done | apply IH; [done|]].
    intros f' ??. apply Hx; [by right | done].
Qed.

Lemma fields_have_type_assoc fs vs f :
  fields_have_type P fs vs → NoDup (Name <$> fs) → f ∈ fs →
  ∃ x, assoc (Name f) vs = Some x ∧ P (Type_ f) x.
Proof.
  revert vs. induction fs as [|f0 fs IH]; intros [|[k y] vs]; simpl; try done.
  - by intros _ _ ?%elem_of_nil.
  - intros (<- & Hy & Hvs) [Hf0 Hnd]%NoDup_cons [->|Hin]%elem_of_cons.
    + rewrite decide_True by done. eauto.
    + rewrite decide_False; [by apply IH|].
      intros Heq. apply Hf0. rewrite Heq. by apply list_elem_of_fmap_2.
Qed.
End fields_have_type.

Lemma fields_have_type_zero (P : rtype → value → Prop) fs :
  Forall (λ f, P (Type_ f) (Zero (Type_ f))) fs →
  fields_have_type P fs ((λ f, (Name f, Zero (Type_ f))) <$> fs).
Proof. induction 1; simpl; auto. Qed.

Lemma has_type_names name fs v :
  has_type (TStruct name fs) v → names v = Name <$> fs.
Proof. destruct v; simpl; try done. apply fields_have_type_names. Qed.

Lemma has_type_struct_inv name fs v :
  has_type (TStruct name fs) v → ∃ vs, v = VStruct vs ∧ fields_have_type has_type fs vs.
Proof. destruct v; simpl; try done. eauto. Qed.

(** A field of a well-typed struct is well typed, and stays so when a
    well-typed value is stored in it. *)
Lemma has_type_get name fs v f :
  has_type (TStruct name fs) v → NoDup (Name <$> fs) → f ∈ fs →
  has_type (Type_ f) v.[Name f].
Proof.
  intros (vs & -> & Hvs)%has_type_struct_inv Hnd Hin. simpl.
  destruct (fields_have_type_assoc _ _ _ _ Hvs Hnd Hin) as (x & -> & Hx). done.
Qed.

Lemma has_type_set name fs v f x :
  has_type (TStruct name fs) v → NoDup (Name <$> fs) → f ∈ fs →
  has_type (Type_ f) x → has_type (TStruct name fs) v.[Name f ::= x].
Proof.
  intros (vs & -> & Hvs)%has_type_struct_inv Hnd Hin Hx. simpl.
  apply fields_have_type_update; [done|].
  intros f' Hin' Heq. by rewrite (field_name_inj fs f' f).
Qed.

Lemma Zero_has_type t : has_type t (Zero t).
Proof.
  induction t as [| | | | | |e IH|e IH|e IH|name fs IH] using rtype_ind'; simpl; try done.
  by apply fields_have_type_zero.
Qed.

(** ** Typing of what [yaml.unmarshal] yields *)

Lemma node_ind' (P : node → Prop) :
  (∀ text r, P (Scalar text r)) →
  (∀ cs, Forall P cs → P (Sequence cs)) →
  (∀ cs, Forall (λ kc, P kc.2) cs → P (Mapping cs)) →
  ∀ n, P n.
Proof.
  intros HS HQ HM. fix IH 1. intros [text r|cs|cs].
  - apply HS.
  - apply HQ. induction cs as [|c cs IHcs]; constructor; [apply IH | apply IHcs].
  - apply HM. induction cs as [|[k c] cs IHcs]; constructor; [apply IH | apply IHcs].
Qed.

Lemma has_type_pointers t v : has_type (pointee t) v → has_type t (pointers t v).
Proof. induction t; simpl; auto. Qed.

Lemma pointee_not_ptr t e : pointee t ≠ TPtr e.
Proof. induction t; simpl; auto; done. Qed.

Lemma scalar_has_type t text r v : scalar t text r = Some v → has_type t v.
Proof.
  destruct t; simpl; try done; intros; repeat case_match; simplify_eq; done.
Qed.

Lemma sequence_has_type (dec : rtype → node → decoded) et cs :
  Forall (λ c, has_type et (dec et c).1.1) cs →
  Forall (has_type et) (sequence dec et cs).1.
Proof.
  induction 1 as [|c cs Hc _ IH]; simpl in *; [constructor|].
  destruct (dec et c) as [[e ok] errs1], (sequence dec et cs) as [es errs2]; simpl in *.
  destruct ok; auto.
Qed.

Lemma fieldByKey_Some key fs f : fieldByKey key fs = Some f → f ∈ fs ∧ key_of f = Some key.
Proof.
  induction fs as [|f0 fs IH]; simpl; [done|].
  case_decide; intros; simplify_eq; [split; [left | done]|].
  destruct IH; [done|]. split; [by right | done].
Qed.

Lemma mappingStruct_has_type (dec : rtype → node → decoded) name fs cs :
  Forall (λ kc, ∀ t, wf t → has_type t (dec t kc.2).1.1) cs →
  ∀ fs0 out doneFields,
    (∀ f, f ∈ fs → f ∈ fs0) → wf (TStruct name fs0) →
    fields_have_type has_type fs0 out →
    fields_have_type has_type fs0 (mappingStruct dec name fs cs out doneFields).1.
Proof.
  induction 1 as [|[key c] cs Hc _ IH]; intros fs0 out doneFields Hsub Hwf Hout; simpl; [done|].
  destruct (fieldByKey key fs) as [f|] eqn:Hf.
  - case_decide.
    + specialize (IH fs0 out doneFields Hsub Hwf Hout).
      destruct (mappingStruct dec name fs cs out doneFields); simpl in *; done.
    + apply fieldByKey_Some in Hf as [Hin%Hsub _].
      specialize (Hc (Type_ f) (wf_field _ _ _ Hwf Hin)). simpl in Hc.
      destruct (dec (Type_ f) c) as [[v ok] errs1]; simpl in *.
      specialize (IH fs0 (update (Name f) v out) (Name f :: doneFields) Hsub Hwf).
      destruct (mappingStruct dec name fs cs (update (Name f) v out) (Name f :: doneFields)).
      simpl in *. apply IH.
      apply (has_type_set name fs0 (VStruct out) f v); [done | apply Hwf | done | done].
  - specialize (IH fs0 out doneFields Hsub Hwf Hout).
    destruct (mappingStruct dec name fs cs out doneFields); simpl in *; done.
Qed.

Lemma mapping_has_type (dec : rtype → node → decoded) et cs :
  Forall (λ kc, has_type et (dec et kc.2).1.1) cs →
  ∀ out, map_Forall (λ _, has_type et) out →
         map_Forall (λ _, has_type et) (mapping dec et cs out).1.
Proof.
  induction 1 as [|[key c] cs Hc _ IH]; intros out Hout; simpl in *; [done|].
  destruct (dec et c) as [[e ok] errs1]; simpl in *.
  destruct ok.
  - destruct (out !! key) eqn:Hk.
    + specialize (IH out Hout). destruct (mapping dec et cs out); simpl in *; done.
    + specialize (IH (<[key:=e]> out)).
      destruct (mapping dec et cs (<[key:=e]> out)). apply IH.
      by apply map_Forall_insert_2.
  - specialize (IH out Hout). destruct (mapping dec et cs out); simpl in *; done.
Qed.

Lemma wf_pointee t : wf t → wf (pointee t).
Proof. induction t; simpl; auto. Qed.

Theorem unmarshal_has_type n : ∀ t, wf t → has_type t (unmarshal t n).1.1.
Proof.
  induction n as [text r|cs IH|cs IH] using node_ind'; intros t Hwf.
  - assert (has_type t (pointers t (Zero (pointee t)))) as Hzero
      by apply has_type_pointers, Zero_has_type.
    destruct r; simpl; try apply Zero_has_type;
      (destruct (scalar (pointee t) text _) eqn:Hs; simpl;
       [apply has_type_pointers; eapply scalar_has_type; exact Hs | done]).
  - simpl. pose proof (wf_pointee t Hwf) as Hwf'.
    destruct (pointee t) as [| | | | | |et|et|et|name fs] eqn:Ht; simpl;
      try (apply has_type_pointers; rewrite Ht;
           first [done | exact (Zero_has_type (TStruct name fs))]).
    pose proof (sequence_has_type unmarshal et cs) as Hseq.
    destruct (sequence unmarshal et cs) as [items errs]. simpl in *.
    apply has_type_pointers. rewrite Ht. simpl. apply Hseq.
    eapply Forall_impl; [apply IH|]. simpl. auto.
  - simpl. pose proof (wf_pointee t Hwf) as Hwf'.
    destruct (pointee t) as [| | | | | |et|et|et|name fs] eqn:Ht; simpl;
      try (apply has_type_pointers; rewrite Ht; done).
    + pose proof (mapping_has_type unmarshal et cs) as Hmap.
      destruct (mapping unmarshal et cs ∅) as [out errs] eqn:Hm. simpl in *.
      apply has_type_pointers. rewrite Ht. simpl.
      specialize (Hmap (Forall_impl _ _ _ IH (λ kc H, H et Hwf')) ∅ (map_Forall_empty _)).
      by rewrite Hm in Hmap.
    + pose proof (mappingStruct_has_type unmarshal name fs cs IH fs
                    ((λ f, (Name f, Zero (Type_ f))) <$> fs) [] (λ _ H, H) Hwf') as Hms.
      destruct (mappingStruct unmarshal name fs cs _ []) as [out errs] eqn:Hm. simpl in *.
      apply has_type_pointers. rewrite Ht. simpl. apply Hms.
      apply fields_have_type_zero, Forall_forall. intros; apply Zero_has_type.
Qed.

(** * Facts about [defaults.Set] *)

Import defaults.

Lemma initialize_has_type t d v v' :
  has_type t v → initialize t d v = Done v' → has_type t v'.
Proof.
  destruct t; simpl; intros Hv Hi; repeat case_match; simplify_eq; simpl; try done.
  apply Zero_has_type.
Qed.

Section Set_fields.
Variable sf : rtype → string → value → call value.

(** What the loop of [Set] leaves in each field: the result of
    [setField] on what the field held, and nothing else is touched. *)
Lemma Set_fields_get fs : ∀ v v',
  NoDup (Name <$> fs) → (∀ f, f ∈ fs → Name f ∈ names v) →
  Set_fields sf fs v = Done v' →
  names v' = names v ∧
  (∀ name, name ∉ Name <$> fs → v'.[name] = v.[name]) ∧
  (∀ f, f ∈ fs →
     if decide (Get "default" (Tag f) = "-") then v'.[Name f] = v.[Name f]
     else sf (Type_ f) (Get "default" (Tag f)) v.[Name f] = Done v'.[Name f]).
Proof.
  induction fs as [|f fs IH]; intros v v' Hnd Hnames; simpl.
  - intros [= <-]. split_and!; [done | done | by intros ? ?%elem_of_nil].
  - apply NoDup_cons in Hnd as [Hf Hnd]. case_decide as Hdash.
    + intros Hset. destruct (IH v v' Hnd) as (Hn & Hother & Hin); [|done|].
      { intros; apply Hnames; by right. }
      split_and!; [done | |].
      * intros name [? ?]%not_elem_of_cons. auto.
      * intros f' [->|Hf']%elem_of_cons; [|by apply Hin].
        rewrite decide_True by done. by apply Hother.
    + destruct (sf (Type_ f) _ v.[Name f]) as [x| |] eqn:Hsf; try done.
      intros Hset. destruct (IH v.[Name f ::= x] v' Hnd) as (Hn & Hother & Hin); [|done|].
      { intros; rewrite names_set; apply Hnames; by right. }
      rewrite names_set in Hn. split_and!; [done | |].
      * intros name [? ?]%not_elem_of_cons. rewrite Hother by done.
        by apply get_set_ne.
      * intros f' [->|Hf']%elem_of_cons.
        -- rewrite decide_False by done. rewrite Hsf, Hother by done.
           rewrite get_set_eq; [done|]. apply Hnames; by left.
        -- specialize (Hin f' Hf').
           assert (Name f' ≠ Name f) as Hne.
           { intros Heq. apply Hf. rewrite <- Heq. by apply list_elem_of_fmap_2. }
           by rewrite get_set_ne in Hin.
Qed.

Lemma Set_fields_has_type name fs0 fs : ∀ v v',
  (∀ f, f ∈ fs → f ∈ fs0) → NoDup (Name <$> fs0) →
  (∀ f d x x', f ∈ fs → has_type (Type_ f) x → sf (Type_ f) d x = Done x' →
               has_type (Type_ f) x') →
  has_type (TStruct name fs0) v →
  Set_fields sf fs v = Done v' → has_type (TStruct name fs0) v'.
Proof.
  induction fs as [|f fs IH]; intros v v' Hsub Hnd Hsf Hv; simpl.
  - by intros [= <-].
  - assert (∀ f', f' ∈ fs → f' ∈ fs0) as Hsub' by (intros; apply Hsub; by right).
    assert (∀ f d x x', f ∈ fs → has_type (Type_ f) x → sf (Type_ f) d x = Done x' →
               has_type (Type_ f) x') as Hsf' by (intros ???? ?; apply Hsf; by right).
    case_decide; [by apply IH|].
    destruct (sf (Type_ f) _ v.[Name f]) as [x| |] eqn:Hx; try done.
    apply IH; try done.
    assert (f ∈ fs0) as Hin by (apply Hsub; left).
    eapply has_type_set; try done.
    eapply Hsf; [left | | exact Hx]. by eapply has_type_get.
Qed.

Lemma Set_elements_has_type e d xs : ∀ xs',
  (∀ x x', has_type e x → sf e d x = Done x' → has_type e x') →
  Forall (has_type e) xs →
  Set_elements sf e d xs = Done xs' → Forall (has_type e) xs'.
Proof.
  induction xs as [|x xs IH]; intros xs' Hsf Hxs; simpl.
  - by intros [= <-].
  - apply Forall_cons in Hxs as [Hx Hxs].
    destruct (sf e d x) as [x'| |] eqn:Hx'; try done.
    destruct (Set_elements sf e d xs) as [xs''| |] eqn:Hxs'; try done.
    intros [= <-]. constructor; eauto.
Qed.
End Set_fields.

Theorem setField_has_type t : wf t → ∀ d v v',
  has_type t v → setField t d v = Done v' → has_type t v'.
Proof.
  induction t as [| | | | | |e IH|e IH|e IH|name fs IH] using rtype_ind';
    intros Hwf d v v' Hv;
    try (simpl; intros; repeat case_match; simplify_eq; done).
  - (* slices *)
    cbn [setField]. case_match; [by intros ?; simplify_eq|].
    destruct (if isInitialValue v then _ else _) as [v1| |] eqn:Hinit; try done.
    assert (has_type (TSlice e) v1) as Hv1.
    { case_match; simplify_eq; [|done]. by eapply initialize_has_type. }
    destruct v1 as [| | |[xs|]| | |]; try by intros ?; simplify_eq.
    destruct (Set_elements setField e d xs) as [xs'| |] eqn:Hxs; try done.
    intros ?; simplify_eq. simpl. eapply Set_elements_has_type; [|exact Hv1|exact Hxs].
    intros x x'. by apply IH.
  - (* pointers *)
    cbn [setField]. case_match; [by intros ?; simplify_eq|].
    destruct (if isInitialValue v then _ else _) as [v1| |] eqn:Hinit; try done.
    assert (has_type (TPtr e) v1) as Hv1.
    { case_match; simplify_eq; [|done]. by eapply initialize_has_type. }
    destruct v1 as [| | | | |[x|]|]; try by intros ?; simplify_eq.
    destruct (setField e d x) as [x'| |] eqn:Hx; intros ?; simplify_eq; try done.
    simpl. by eapply IH.
  - (* structs *)
    cbn [setField]. case_match; [by intros ?; simplify_eq|].
    destruct (if isInitialValue v then _ else _) as [v1| |] eqn:Hinit; try done.
    assert (has_type (TStruct name fs) v1) as Hv1.
    { case_match; simplify_eq; [|done]. by eapply initialize_has_type. }
    apply Set_fields_has_type; try done; [apply Hwf|].
    intros f d' x x' Hin. rewrite Forall_forall in IH. apply IH; [done|].
    by eapply wf_field.
Qed.

(** ** [Set] does not fail on a schema whose defaults are on scalars *)

Lemma initialize_scalar_Done t d v : is_scalar t → ∃ v', initialize t d v = Done v'.
Proof. destruct t; simpl; try done; eauto. Qed.

Lemma Set_elements_Done (sf : rtype → string → value → call value) e d :
  (∀ x, ∃ x', sf e d x = Done x') →
  ∀ xs, ∃ xs', Set_elements sf e d xs = Done xs'.
Proof.
  intros Hsf xs. induction xs as [|x xs [xs' IH]]; simpl; [eauto|].
  destruct (Hsf x) as [x' ->]. rewrite IH. eauto.
Qed.

Lemma Set_fields_Done (sf : rtype → string → value → call value) fs :
  Forall (λ f, ∀ x, ∃ x', sf (Type_ f) (Get "default" (Tag f)) x = Done x') fs →
  ∀ v, ∃ v', Set_fields sf fs v = Done v'.
Proof.
  induction 1 as [|f fs Hf _ IH]; intros v; simpl; [eauto|].
  case_decide; [done|]. destruct (Hf v.[Name f]) as [x ->]. done.
Qed.

Theorem setField_Done t : scalar_defaults t → ∀ d v,
  d = "" ∨ is_scalar t → ∃ v', setField t d v = Done v'.
Proof.
  induction t as [| | | | | |e IH|e IH|e IH|name fs IH] using rtype_ind';
    intros Hsd d v Hd;
    try (simpl; repeat case_match; eauto; done).
  - (* slices *)
    destruct Hd as [->|?]; [|done]. cbn [setField].
    case_match; [eauto|].
    assert (∀ xs, ∃ xs', Set_elements setField e "" xs = Done xs') as Hxs.
    { apply Set_elements_Done. intros x. apply IH; auto. }
    destruct (isInitialValue v); simpl.
    + destruct (Hxs []) as [xs' Hxs']. simpl in Hxs'. eauto.
    + destruct v as [| | |[xs|]| | |]; eauto.
      destruct (Hxs xs) as [xs' ->]. eauto.
  - (* maps *)
    destruct Hd as [->|?]; [|done]. simpl. eauto.
  - (* structs *)
    destruct Hd as [->|?]; [|done]. cbn [setField]. simpl.
    assert (∀ v, ∃ v', Set_fields setField fs v = Done v') as Hfs.
    { apply Set_fields_Done. simpl in Hsd. clear v.
      induction fs as [|f fs IHfs]; [constructor|].
      apply Forall_cons in IH as [IHf IH].
      simpl in Hsd. apply andb_True in Hsd as [[Hd Hf]%andb_True Hsd].
      constructor; [|by apply IHfs].
      intros x. apply IHf; [done|].
      apply orb_True in Hd as [Hd|Hd]; [left; by apply bool_decide_unpack in Hd | by right]. }
    destruct (isInitialValue v); simpl; apply Hfs.
Qed.

(** * Facts about [yaml.unmarshal] *)

Section mappingStruct.
Variable dec : rtype → node → decoded.
Variables (name : string) (fs : list StructField).
Hypothesis fs_NoDup : NoDup (Name <$> fs).

Lemma fieldByKey_name key key' f f' :
  fieldByKey key fs = Some f → fieldByKey key' fs = Some f' →
  Name f = Name f' → key = key'.
Proof.
  intros [Hin Hk]%fieldByKey_Some [Hin' Hk']%fieldByKey_Some Heq.
  assert (f = f') as ->; [by eapply field_name_inj | congruence].
Qed.

(** A field that no key of the mapping names keeps what it held. *)
Lemma mappingStruct_untouched cs field : ∀ out doneFields,
  (∀ key c f, (key, c) ∈ cs → fieldByKey key fs = Some f → Name f ≠ field) →
  (VStruct (mappingStruct dec name fs cs out doneFields).1).[field] = (VStruct out).[field].
Proof.
  induction cs as [|[key c] cs IH]; intros out doneFields Hcs; [done|].
  assert (∀ key c f, (key, c) ∈ cs → fieldByKey key fs = Some f → Name f ≠ field) as Hcs'
    by (intros k' c' ? ?; apply (Hcs k' c'); by right).
  cbn [mappingStruct]. destruct (fieldByKey key fs) as [f|] eqn:Hf.
  - case_decide.
    + specialize (IH out doneFields Hcs').
      destruct (mappingStruct dec name fs cs out doneFields). done.
    + destruct (dec (Type_ f) c) as [[v ok] errs1].
      specialize (IH (update (Name f) v out) (Name f :: doneFields) Hcs').
      destruct (mappingStruct dec name fs cs _ _). simpl in *. rewrite IH.
      apply (get_set_ne (VStruct out)). intros Heq.
      by eapply (Hcs key c f); [left| |].
  - specialize (IH out doneFields Hcs').
    destruct (mappingStruct dec name fs cs out doneFields). done.
Qed.

(** Without errors, a field that was already set is not set again. *)
Lemma mappingStruct_done cs field : ∀ out doneFields,
  field ∈ doneFields →
  (mappingStruct dec name fs cs out doneFields).2 = [] →
  (VStruct (mappingStruct dec name fs cs out doneFields).1).[field] = (VStruct out).[field].
Proof.
  induction cs as [|[key c] cs IH]; intros out doneFields Hdone; [done|].
  cbn [mappingStruct]. destruct (fieldByKey key fs) as [f|] eqn:Hf.
  - case_decide as Hf'.
    + destruct (mappingStruct dec name fs cs out doneFields). done.
    + destruct (dec (Type_ f) c) as [[v ok] errs1].
      specialize (IH (update (Name f) v out) (Name f :: doneFields)).
      destruct (mappingStruct dec name fs cs _ _). simpl in *.
      intros [_ ->]%app_eq_nil. rewrite IH; [|by right|done].
      apply (get_set_ne (VStruct out)). intros Heq. by rewrite Heq in Hdone.
  - destruct (mappingStruct dec name fs cs out doneFields). done.
Qed.

(** Without errors, the field of a key of the mapping holds what the node
    under the key decodes to, and that node decodes without errors. *)
Lemma mappingStruct_set cs key c f : ∀ out doneFields,
  assoc key cs = Some c → fieldByKey key fs = Some f →
  Name f ∈ out.*1 →
  (mappingStruct dec name fs cs out doneFields).2 = [] →
  (VStruct (mappingStruct dec name fs cs out doneFields).1).[Name f]
    = (dec (Type_ f) c).1.1
  ∧ (dec (Type_ f) c).2 = [].
Proof.
  induction cs as [|[key' c'] cs IH]; intros out doneFields Hc Hf Hin; [done|].
  cbn [mappingStruct]. simpl in Hc. case_decide as Hkey.
  - simplify_eq. rewrite Hf. case_decide.
    + destruct (mappingStruct dec name fs cs out doneFields). done.
    + pose proof (mappingStruct_done cs (Name f) (update (Name f) (dec (Type_ f) c).1.1 out)
                    (Name f :: doneFields)) as Hdone.
      destruct (dec (Type_ f) c) as [[v ok] errs1].
      destruct (mappingStruct dec name fs cs _ _). simpl in *.
      intros [-> ->]%app_eq_nil. split; [|done].
      rewrite Hdone; [|by left|done].
      by apply (get_set_eq (VStruct out)).
  - destruct (fieldByKey key' fs) as [f'|] eqn:Hf'.
    + case_decide.
      * destruct (mappingStruct dec name fs cs out doneFields). done.
      * destruct (dec (Type_ f') c') as [[v ok] errs1].
        specialize (IH (update (Name f') v out) (Name f' :: doneFields) Hc Hf).
        destruct (mappingStruct dec name fs cs _ _). simpl in *.
        intros [-> ->]%app_eq_nil. apply IH; [|done].
        by rewrite update_names.
    + destruct (mappingStruct dec name fs cs out doneFields). done.
Qed.

(** Without errors, every key of the mapping names a field. *)
Lemma mappingStruct_declared cs key : ∀ out doneFields,
  key ∈ cs.*1 →
  (mappingStruct dec name fs cs out doneFields).2 = [] →
  is_Some (fieldByKey key fs).
Proof.
  induction cs as [|[key' c'] cs IH]; intros out doneFields Hin; [by apply elem_of_nil in Hin|].
  cbn [mappingStruct]. apply elem_of_cons in Hin as [->|Hin]; simpl.
  - destruct (fieldByKey key' fs) as [f'|] eqn:Hf'; [eauto|].
    destruct (mappingStruct dec name fs cs out doneFields). done.
  - destruct (fieldByKey key' fs) as [f'|] eqn:Hf'.
    + case_decide.
      * destruct (mappingStruct dec name fs cs out doneFields). done.
      * destruct (dec (Type_ f') c') as [[v ok] errs1].
        specialize (IH (update (Name f') v out) (Name f' :: doneFields) Hin).
        destruct (mappingStruct dec name fs cs _ _). simpl in *.
        intros [-> ->]%app_eq_nil. auto.
    + destruct (mappingStruct dec name fs cs out doneFields). done.
Qed.
End mappingStruct.

Section mapping.
Variable dec : rtype → node → decoded.
Variable et : rtype.
Hypothesis dec_good : ∀ c, (dec et c).2 = [] → (dec et c).1.2 = true.

(** Without errors, the map holds under each key of the mapping what the
    node under it decodes to, and nothing under other keys. *)
Lemma mapping_lookup cs : ∀ out key,
  (mapping dec et cs out).2 = [] →
  (mapping dec et cs out).1 !! key
    = match assoc key cs with
      | Some c => Some (dec et c).1.1
      | None => out !! key
      end
  ∧ (∀ c, assoc key cs = Some c → (dec et c).2 = [] ∧ out !! key = None).
Proof.
  induction cs as [|[key' c'] cs IH]; intros out key; [done|].
  cbn [mapping]. simpl. specialize (dec_good c').
  destruct (dec et c') as [[e ok] errs1] eqn:Hdec. simpl in *.
  destruct ok.
  - destruct (out !! key') eqn:Hout.
    + destruct (mapping dec et cs out). simpl. by intros [_ ?]%app_eq_nil.
    + specialize (IH (<[key':=e]> out) key).
      destruct (mapping dec et cs (<[key':=e]> out)). simpl in *.
      intros [-> ->]%app_eq_nil. destruct IH as [IH1 IH2]; [done|].
      case_decide; subst.
      * rewrite IH1. destruct (assoc key cs) as [c|] eqn:Hc.
        -- destruct (IH2 c eq_refl) as [_ Hk]. by rewrite lookup_insert_eq in Hk.
        -- rewrite lookup_insert_eq, Hdec. split; [done|]. intros ? [= <-]. by rewrite Hdec.
      * rewrite IH1. rewrite lookup_insert_ne by done. split; [done|].
        intros c Hc. destruct (IH2 c Hc) as [? Hk].
        rewrite lookup_insert_ne in Hk by done. done.
  - destruct (mapping dec et cs out). simpl. intros [-> _]%app_eq_nil.
    by specialize (dec_good eq_refl).
Qed.
End mapping.

(** A decoding step without errors is good. *)
Lemma unmarshal_good t n : (unmarshal t n).2 = [] → (unmarshal t n).1.2 = true.
Proof.
  destruct n as [text r|cs|cs]; simpl.
  - destruct r; try done; by destruct (scalar (pointee t) text _).
  - destruct (pointee t); try done. by destruct (sequence unmarshal _ cs).
  - destruct (pointee t); try done.
    + by destruct (mapping unmarshal _ cs ∅).
    + by destruct (mappingStruct unmarshal _ _ cs _ []).
Qed.

(** * The loops of [loadConfig] *)

Lemma update_id {A} k (a : A) l : assoc k l = Some a → update k a l = l.
Proof.
  induction l as [|[k' a'] l IH]; simpl; [done|].
  case_decide; intros; simplify_eq; [done | by rewrite IH].
Qed.

Lemma set_get v a : v.[a ::= v.[a]] = v.
Proof.
  destruct v as [| | | | | |fs]; simpl; try done. f_equal.
  destruct (assoc a fs) as [x|] eqn:Ha; simpl.
  - by apply update_id.
  - by apply update_absent, assoc_None.
Qed.

Lemma set_comm v a b x y : a ≠ b → v.[a ::= x].[b ::= y] = v.[b ::= y].[a ::= x].
Proof.
  intros Hne. destruct v as [| | | | | |fs]; simpl; try done. f_equal.
  induction fs as [|[k z] fs IH]; simpl; [done|].
  repeat (case_decide; simpl; subst); try done. by rewrite IH.
Qed.

Lemma strings_of_append slice s : strings_of (append slice s) = strings_of slice ++ [s].
Proof. unfold strings_of, append. simpl. by rewrite fmap_app. Qed.

Lemma is_Next_passed (f : flow value) : is_Next f → f = Next (passed f).
Proof. by destruct f. Qed.

(** ** A loop that only checks *)

Lemma for_range_check {A} (xs : list A) (body : A → () → flow ()) :
  for_range xs body () = Next () ↔ Forall (λ x, body x () = Next ()) xs.
Proof.
  induction xs as [|x xs IH]; simpl.
  - split; [constructor | done].
  - rewrite Forall_cons. destruct (body x ()) as [[]|o]; [|split; [done | by intros [? ?]]].
    rewrite IH. split; [done | by intros [? ?]].
Qed.

(** ** The loops that sort prefixes by address family

    [by_family on6 on4 msg] is the body of the three loops: an IPv6 prefix
    is appended to the field [on6], an IPv4 prefix to the field [on4]. *)

Lemma family_exclusive prefix : is_IPv4 prefix → is_IPv6 prefix → False.
Proof. intros (? & ? & ?) (? & ? & ?). simplify_eq. Qed.

Lemma family_total prefix :
  is_Some (net.ParseCIDR prefix) ↔ is_IPv4 prefix ∨ is_IPv6 prefix.
Proof.
  unfold is_IPv4, is_IPv6. split.
  - intros [pfx Hp]. destruct (decide (net.To4 pfx = None)); eauto.
  - intros [(? & ? & _)|(? & ? & _)]; eauto.
Qed.

Section by_family.
Variables on6 on4 msg : string.
Hypothesis distinct : on6 ≠ on4.

Lemma by_family_loop xs : ∀ v v',
  on6 ∈ names v → on4 ∈ names v →
  for_range xs (by_family on6 on4 msg) v = Next v' →
  Forall (λ x, is_Some (net.ParseCIDR x)) xs
  ∧ names v' = names v
  ∧ (∀ a, a ≠ on6 → a ≠ on4 → v'.[a] = v.[a])
  ∧ strings_of v'.[on6] = strings_of v.[on6] ++ filter is_IPv6 xs
  ∧ strings_of v'.[on4] = strings_of v.[on4] ++ filter is_IPv4 xs.
Proof.
  induction xs as [|x xs IH]; intros v v' H6 H4; simpl.
  - intros [= <-]. rewrite !app_nil_r. split_and!; done.
  - unfold by_family at 1. destruct (net.ParseCIDR x) as [pfx|] eqn:Hx; [|done].
    case_decide as Hfam; intros Hloop; apply IH in Hloop; try (by rewrite names_set);
      destruct Hloop as (Hall & Hn & Hother & Hv6 & Hv4); rewrite names_set in Hn.
    + split_and!; [constructor; eauto | done | | |].
      * intros a ??. rewrite Hother by done. by apply get_set_ne.
      * rewrite Hv6, get_set_eq, strings_of_append by done.
        rewrite filter_cons_True by (red; eauto). by rewrite <- app_assoc.
      * rewrite Hv4, get_set_ne by done.
        rewrite filter_cons_False; [done|]. intros (? & ? & ?). simplify_eq.
    + split_and!; [constructor; eauto | done | | |].
      * intros a ??. rewrite Hother by done. by apply get_set_ne.
      * rewrite Hv6, get_set_ne by done.
        rewrite filter_cons_False; [done|]. intros (? & ? & ?). simplify_eq.
      * rewrite Hv4, get_set_eq, strings_of_append by done.
        rewrite filter_cons_True by (red; eauto). by rewrite <- app_assoc.
Qed.
End by_family.

(** ** The loops over the peers *)

Section for_peers.
Variable body : value → flow value.

Let step : string * value → value → flow value :=
  λ '(name, peerData) config,
    pointee ← body peerData; Next (write_peer name pointee config).

Lemma for_range_peers l : ∀ config m config',
  "Peers" ∈ names config → config.["Peers"] = VMap (Some m) →
  for_range l step config = Next config' ↔
    Forall (λ kv, is_Next (body kv.2)) l
    ∧ config' = config.["Peers" ::= VMap (Some (visited body l m))].
Proof.
  induction l as [|[name peerData] l IH]; intros config m config' Hin Hm; simpl.
  - rewrite <- Hm, set_get. split; [intros [= <-]; by split | by intros [_ ->]].
  - rewrite Forall_cons. simpl. destruct (body peerData) as [pointee|o] eqn:Hbody; simpl.
    + unfold write_peer. rewrite Hm.
      rewrite (IH _ (<[name:=VPtr (Some pointee)]> m)); [|by rewrite names_set|by rewrite get_set_eq].
      rewrite set_set. tauto.
    + split; [done | by intros [[[] _] _]].
Qed.

Lemma visited_lookup l : ∀ m k,
  NoDup l.*1 →
  visited body l m !! k
    = match assoc k l with
      | Some v => Some (VPtr (Some (passed (body v))))
      | None => m !! k
      end.
Proof.
  induction l as [|[k' v'] l IH]; intros m k Hnd; [done|].
  simpl in Hnd. apply NoDup_cons in Hnd as [Hk' Hnd]. unfold visited in *. simpl.
  rewrite IH by done. case_decide; subst.
  - apply assoc_None in Hk'. by rewrite Hk', lookup_insert_eq.
  - destruct (assoc k l); [done|]. by rewrite lookup_insert_ne.
Qed.

(** Visiting the entries of a map in any order applies [body] to each. *)
Lemma visited_fmap l m :
  l ≡ₚ map_to_list m →
  visited body l m = (λ v, VPtr (Some (passed (body v)))) <$> m.
Proof.
  intros Hl. assert (NoDup l.*1) as Hnd.
  { rewrite Hl. apply NoDup_fst_map_to_list. }
  apply map_eq. intros k. rewrite visited_lookup, lookup_fmap by done.
  destruct (m !! k) as [v|] eqn:Hk.
  - rewrite (assoc_NoDup k v); [done | done |].
    rewrite Hl. by apply elem_of_map_to_list.
  - destruct (assoc k l) as [v|] eqn:Hl'; [|done].
    apply assoc_Some_elem in Hl'. rewrite Hl in Hl'.
    apply elem_of_map_to_list in Hl'. congruence.
Qed.

Theorem for_peers_spec order config config' :
  (∀ l, order l ≡ₚ l) → "Peers" ∈ names config →
  (∃ m, config.["Peers"] = VMap m) →
  for_peers order body config = Next config' ↔
    (∀ name peerData, (name, peerData) ∈ entries config.["Peers"] → is_Next (body peerData))
    ∧ config' = match config.["Peers"] with
                | VMap (Some m) =>
                    config.["Peers" ::= VMap (Some ((λ v, VPtr (Some (passed (body v)))) <$> m))]
                | _ => config
                end.
Proof.
  intros Hfair Hin [om Hm]. unfold for_peers. rewrite Hm.
  destruct om as [m|]; simpl.
  - fold step. rewrite (for_range_peers _ config m) by done.
    rewrite visited_fmap by apply Hfair.
    rewrite Forall_forall.
    split; intros [Hall ->]; (split; [|done]).
    + intros name peerData Hp. apply (Hall (name, peerData)). by rewrite Hfair.
    + intros [name peerData] Hp. apply (Hall name peerData). by rewrite <- (Hfair (map_to_list m)).
  - assert (order [] = []) as -> by (apply Permutation_nil_r, Hfair).
    simpl. split; [intros [= <-]; split; [by intros ?? ?%elem_of_nil | done] | by intros [_ ->]].
Qed.
End for_peers.

(** ** The loop over the static routes *)

Lemma parse_static_routes_unfold ρ config :
  parse_static_routes ρ config
  = for_range (statics ρ (entries config.["Augments"].["Statics"])) static_route config.
Proof. done. Qed.

Lemma added_lookup (P : string → Prop) `{∀ k, Decision (P k)} l : ∀ m k,
  NoDup l.*1 →
  added P l m !! k
  = match assoc k l with
    | Some v => if decide (P k) then Some v else m !! k
    | None => m !! k
    end.
Proof.
  induction l as [|[k' v'] l IH]; intros m k Hnd; [done|].
  simpl in Hnd. apply NoDup_cons in Hnd as [Hk' Hnd]. unfold added in *. simpl.
  rewrite IH by done. destruct (decide (k' = k)) as [->|Hne].
  - apply assoc_None in Hk'. rewrite Hk'. case_decide; [by rewrite lookup_insert_eq | done].
  - assert ((if decide (P k') then <[k':=v']> m else m) !! k = m !! k) as ->; [|done].
    case_decide; by rewrite ?lookup_insert_ne.
Qed.

Lemma added_filter (P : string → Prop) `{∀ k, Decision (P k)} l (m : gmap string value) :
  l ≡ₚ map_to_list m → added P l ∅ = filter (λ kv, P kv.1) m.
Proof.
  intros Hl. assert (NoDup l.*1) as Hnd.
  { rewrite Hl. apply NoDup_fst_map_to_list. }
  apply map_eq. intros k. rewrite added_lookup, lookup_empty by done.
  destruct (assoc k l) as [v|] eqn:Hk.
  - apply assoc_Some_elem in Hk. rewrite Hl in Hk. apply elem_of_map_to_list in Hk.
    case_decide.
    + symmetry. by apply map_lookup_filter_Some.
    + symmetry. apply map_lookup_filter_None. right. intros v' ?. by simpl.
  - symmetry. apply map_lookup_filter_None. left.
    destruct (m !! k) as [v|] eqn:Hm; [|done].
    apply elem_of_map_to_list in Hm. rewrite <- Hl in Hm.
    apply (assoc_NoDup k v) in Hm; [congruence | done].
Qed.

Lemma static_routes_loop l : ∀ config aug a4 a6 config',
  "Augments" ∈ names config → config.["Augments"] = aug →
  "Statics4" ∈ names aug → "Statics6" ∈ names aug →
  aug.["Statics4"] = VMap (Some a4) → aug.["Statics6"] = VMap (Some a6) →
  for_range l static_route config = Next config' ↔
    Forall (λ kv, static_ok kv.1 kv.2) l
    ∧ config' = config.["Augments" ::=
                  aug.["Statics4" ::= VMap (Some (added is_IPv4 l a4))]
                     .["Statics6" ::= VMap (Some (added is_IPv6 l a6))]].
Proof.
  induction l as [|[prefix nexthop] l IH]; intros config aug a4 a6 config' Hc Haug H4 H6 Ha4 Ha6.
  - simpl. rewrite <- Ha4, <- Ha6 at 1. rewrite set_get.
    rewrite <- (get_set_ne aug "Statics6" "Statics4" aug.["Statics4"]) at 1 by done.
    rewrite set_get, set_get, <- Haug, set_get.
    split; [intros [= <-]; by split | by intros [_ ->]].
  - rewrite Forall_cons. cbn [for_range static_route]. unfold static_ok at 1. simpl.
    destruct (net.ParseCIDR prefix) as [pfx|] eqn:Hpfx;
      [|split; [done | by intros [[[? ?] _] _]]].
    case_decide as Hnh; [split; [done | rewrite Hnh; by intros [[[_ [? ?]] _] _]]|].
    case_decide as Hfam.
    + rewrite Haug, Ha6. simpl.
      rewrite (IH _ (aug.["Statics6" ::= VMap (Some (<[prefix:=nexthop]> a6))]) a4
                  (<[prefix:=nexthop]> a6));
        rewrite ?names_set, ?get_set_eq, ?get_set_ne by done; try done.
      rewrite !set_set.
      rewrite (set_comm _ "Statics6" "Statics4"), set_set by done.
      unfold added at 3 4. simpl.
      rewrite decide_True by (red; eauto).
      rewrite decide_False by (intros (? & ? & ?); simplify_eq).
      split; intros [? ->]; (split; [|done]); [|tauto].
      split_and!; [eauto | by apply not_eq_None_Some | done].
    + rewrite Haug, Ha4. simpl.
      rewrite (IH _ (aug.["Statics4" ::= VMap (Some (<[prefix:=nexthop]> a4))])
                  (<[prefix:=nexthop]> a4) a6);
        rewrite ?names_set, ?get_set_eq, ?get_set_ne by done; try done.
      rewrite !set_set.
      unfold added at 3 4. simpl.
      rewrite decide_False by (intros (? & ? & ?); simplify_eq).
      rewrite decide_True by (red; eauto).
      split; intros [? ->]; (split; [|done]); [|tauto].
      split_and!; [eauto | by apply not_eq_None_Some | done].
Qed.

Lemma entries_map_of v : entries v = map_to_list (map_of v).
Proof. destruct v as [| | | |[m|]| |]; simpl; by rewrite ?map_to_list_empty. Qed.

Theorem parse_static_routes_spec ρ config config' :
  (∀ l, statics ρ l ≡ₚ l) →
  "Augments" ∈ names config →
  "Statics4" ∈ names config.["Augments"] → "Statics6" ∈ names config.["Augments"] →
  parse_static_routes ρ (initialize_static_maps config) = Next config' ↔
    (∀ prefix nexthop, map_of config.["Augments"].["Statics"] !! prefix = Some nexthop →
                       static_ok prefix nexthop)
    ∧ config' = config.["Augments" ::=
        config.["Augments"]
          .["Statics4" ::= VMap (Some (filter (λ kv, is_IPv4 kv.1)
                                         (map_of config.["Augments"].["Statics"])))]
          .["Statics6" ::= VMap (Some (filter (λ kv, is_IPv6 kv.1)
                                         (map_of config.["Augments"].["Statics"])))]].
Proof.
  intros Hfair Hc H4 H6. rewrite parse_static_routes_unfold.
  set (aug := config.["Augments"]) in *.
  assert (initialize_static_maps config
          = config.["Augments" ::= aug.["Statics4" ::= VMap (Some ∅)]
                                      .["Statics6" ::= VMap (Some ∅)]]) as Hinit.
  { unfold initialize_static_maps. by rewrite get_set_eq, set_set. }
  rewrite Hinit.
  rewrite (static_routes_loop _ _ (aug.["Statics4" ::= VMap (Some ∅)].["Statics6" ::= VMap (Some ∅)])
             ∅ ∅); cycle 1.
  { by rewrite names_set. }
  { by rewrite get_set_eq. }
  { by rewrite !names_set. }
  { by rewrite !names_set. }
  { by rewrite get_set_ne, get_set_eq. }
  { rewrite get_set_eq; [done | by rewrite names_set]. }
  rewrite !set_set.
  rewrite (set_comm _ "Statics6" "Statics4"), !set_set by done.
  rewrite (get_set_eq config "Augments"), !(get_set_ne _ "Statics") by done.
  rewrite entries_map_of.
  rewrite !(added_filter _ _ (map_of aug.["Statics"])) by apply Hfair.
  rewrite Forall_forall.
  split; intros [Hall ->]; (split; [|done]).
  - intros prefix nexthop Hp. apply (Hall (prefix, nexthop)).
    rewrite Hfair. by apply elem_of_map_to_list.
  - intros [prefix nexthop] Hp. apply Hall.
    rewrite Hfair in Hp. by apply elem_of_map_to_list in Hp.
Qed.

(** * The schema is well formed *)

Ltac by_computation := apply (bool_decide_unpack _); vm_compute; exact I.

Lemma peer_names_NoDup : NoDup (Name <$> fields main.peer).
Proof. by_computation. Qed.

Lemma config_names_NoDup : NoDup (Name <$> fields main.config).
Proof. by_computation. Qed.

Lemma peer_wf : wf main.peer.
Proof. split; [apply peer_names_NoDup | simpl; tauto]. Qed.

Lemma config_wf : wf main.config.
Proof.
  split; [apply config_names_NoDup|].
  simpl. repeat split; by_computation.
Qed.

Lemma peer_scalar_defaults : scalar_defaults main.peer.
Proof. vm_compute. exact I. Qed.

Lemma config_scalar_defaults : scalar_defaults main.config.
Proof. vm_compute. exact I. Qed.

Lemma field_named_Some name t f :
  field_named name t = Some f → f ∈ fields t ∧ Name f = name.
Proof.
  unfold field_named. destruct (list_find _ _) as [[i f']|] eqn:Hfind; [|done].
  intros [= <-]. apply list_find_Some in Hfind as (Hi & Hf & _).
  split; [by eapply list_elem_of_lookup_2 | done].
Qed.

(** * The outcomes of [loadConfig] *)

Lemma for_range_fails {A S} (xs : list A) (body : A → S → flow S) s :
  (∀ x s, fails (body x s)) → fails (for_range xs body s).
Proof.
  intros Hbody. revert s. induction xs as [|x xs IH]; intros s; simpl; [done|].
  specialize (Hbody x s). destruct (body x s); simpl in *; auto.
Qed.

Lemma bind_fails {S T} (f : flow S) (k : S → flow T) :
  fails f → (∀ s, fails (k s)) → fails (f ≫= k).
Proof. destruct f; simpl; auto. Qed.

Lemma for_peers_fails order body config :
  (∀ peerData, fails (body peerData)) → fails (for_peers order body config).
Proof.
  intros Hbody. apply for_range_fails. intros [name peerData] s.
  apply bind_fails; [apply Hbody | done].
Qed.

Lemma by_family_fails on6 on4 msg prefix v : fails (by_family on6 on4 msg prefix v).
Proof. unfold by_family. repeat case_match; done. Qed.

Lemma unmarshal_config_fails blob : fails (unmarshal_config blob).
Proof. unfold unmarshal_config. repeat case_match; done. Qed.

Lemma validate_config_fails config : fails (validate_config config).
Proof. unfold validate_config. repeat case_match; done. Qed.

Lemma set_defaults_fails config : fails (set_defaults config).
Proof. unfold set_defaults. repeat case_match; done. Qed.

Lemma set_peer_defaults_fails ρ config : fails (set_peer_defaults ρ config).
Proof. apply for_peers_fails. intros ?. repeat case_match; done. Qed.

Lemma parse_origin_routes_fails config : fails (parse_origin_routes config).
Proof. apply for_range_fails. intros ??. apply (by_family_fails "Prefixes4" "Prefixes6"). Qed.

Lemma static_route_fails kv config : fails (static_route kv config).
Proof.
  destruct kv as [prefix nexthop]. unfold static_route, assign.
  repeat case_match; simpl; try done.
Qed.

Lemma parse_static_routes_fails ρ config : fails (parse_static_routes ρ config).
Proof. apply for_range_fails, static_route_fails. Qed.

Lemma parse_vrrp_configs_fails config : fails (parse_vrrp_configs config).
Proof.
  apply for_range_fails. intros vrrpInstance [].
  apply bind_fails.
  - apply for_range_fails. intros ??. apply (by_family_fails "VIPs6" "VIPs4").
  - intros ?. repeat case_match; done.
Qed.

Lemma build_prefix_filters_fails ρ config : fails (build_prefix_filters ρ config).
Proof.
  apply for_peers_fails. intros [| | | | |[pointee|]|]; try done.
  apply for_range_fails. intros ??. apply (by_family_fails "PrefixSet4" "PrefixSet6").
Qed.

(** The body of [loadConfig], block by block. *)
Lemma bind_Next {S T} (s : S) (k : S → flow T) : Next s ≫= k = k s.
Proof. done. Qed.

Lemma bind_Stop {S T} (o : outcome) (k : S → flow T) : Stop o ≫= k = Stop o.
Proof. done. Qed.

Lemma run_Stop o : run (Stop o) = o.
Proof. done. Qed.

Lemma failure_not_success o cfg : failure o → o ≠ Returns (Some cfg) None.
Proof. by destruct o as [[?|] [?|]|]. Qed.

Lemma failure_cases o :
  failure o → (∃ err, o = Returns None (Some err)) ∨ (∃ msg, o = Panics msg).
Proof. destruct o as [[?|] [?|]|]; simpl; try done; eauto. Qed.

(** One block of [loadConfig]: it passes [c] on, or it fails. *)
Tactic Notation "next_block" constr(H) "as" ident(c) :=
  let F := fresh "F" in
  match goal with
  | |- context [run (?f ≫= _)] =>
      pose proof H as F; destruct f as [c|] eqn:?;
      [rewrite bind_Next; clear F | rewrite bind_Stop, run_Stop]
  end.

(** The body of [loadConfig], block by block. *)
Lemma loadConfig_Returns ρ configBlob cfg :
  loadConfig ρ configBlob = Returns (Some cfg) None ↔
  ∃ c0 c1 c2 c3 c4,
    unmarshal_config configBlob = Next c0
    ∧ validate_config c0 = Next ()
    ∧ set_defaults c0 = Next c1
    ∧ set_peer_defaults ρ c1 = Next c2
    ∧ parse_origin_routes c2 = Next c3
    ∧ parse_static_routes ρ (initialize_static_maps c3) = Next c4
    ∧ parse_vrrp_configs c4 = Next ()
    ∧ build_prefix_filters ρ c4 = Next cfg.
Proof.
  unfold loadConfig. split.
  - next_block (unmarshal_config_fails configBlob) as c0; [|by intros ?%failure_not_success].
    next_block (validate_config_fails c0) as u; [|by intros ?%failure_not_success].
    next_block (set_defaults_fails c0) as c1; [|by intros ?%failure_not_success].
    next_block (set_peer_defaults_fails ρ c1) as c2; [|by intros ?%failure_not_success].
    next_block (parse_origin_routes_fails c2) as c3; [|by intros ?%failure_not_success].
    next_block (parse_static_routes_fails ρ (initialize_static_maps c3)) as c4;
      [|by intros ?%failure_not_success].
    next_block (parse_vrrp_configs_fails c4) as u'; [|by intros ?%failure_not_success].
    next_block (build_prefix_filters_fails ρ c4) as c5; [|by intros ?%failure_not_success].
    unfold Return. rewrite run_Stop. intros [= <-].
    destruct u, u'. by exists c0, c1, c2, c3, c4.
  - intros (c0 & c1 & c2 & c3 & c4 & -> & H1 & H2 & H3 & H4 & H5 & H6 & H7).
    rewrite bind_Next, H1, bind_Next, H2, bind_Next, H3, bind_Next, H4, bind_Next,
      H5, bind_Next, H6, bind_Next, H7, bind_Next. done.
Qed.

(** Whatever the input, [loadConfig] returns a configuration and no
    error, or no configuration and an error, or it panics. *)
Lemma loadConfig_outcomes ρ configBlob :
  (∃ cfg, loadConfig ρ configBlob = Returns (Some cfg) None)
  ∨ (∃ err, loadConfig ρ configBlob = Returns None (Some err))
  ∨ (∃ msg, loadConfig ρ configBlob = Panics msg).
Proof.
  unfold loadConfig.
  next_block (unmarshal_config_fails configBlob) as c0; [|by right; apply failure_cases].
  next_block (validate_config_fails c0) as u; [|by right; apply failure_cases].
  next_block (set_defaults_fails c0) as c1; [|by right; apply failure_cases].
  next_block (set_peer_defaults_fails ρ c1) as c2; [|by right; apply failure_cases].
  next_block (parse_origin_routes_fails c2) as c3; [|by right; apply failure_cases].
  next_block (parse_static_routes_fails ρ (initialize_static_maps c3)) as c4;
    [|by right; apply failure_cases].
  next_block (parse_vrrp_configs_fails c4) as u'; [|by right; apply failure_cases].
  next_block (build_prefix_filters_fails ρ c4) as c5; [|by right; apply failure_cases].
  left. eauto.
Qed.

Arguments main.config : simpl never.
Arguments main.peer : simpl never.

(** * The blocks of [loadConfig], one by one *)

(** ** Decoding *)

Lemma unmarshal_config_Next configBlob c0 :
  unmarshal_config configBlob = Next c0 ↔
  ∃ root, configBlob = yaml.Document root
          ∧ (yaml.unmarshal main.config root).2 = []
          ∧ (yaml.unmarshal main.config root).1.1 = c0.
Proof.
  unfold unmarshal_config, yaml.UnmarshalStrict. destruct configBlob as [msg|root].
  - split; [done | by intros (? & ? & _)].
  - destruct (yaml.unmarshal main.config root) as [[out ok] [|e errs]] eqn:Hu; simpl.
    + split.
      * intros [= <-]. exists root. by rewrite Hu.
      * intros (? & [= <-] & _ & <-). by rewrite Hu.
    + split; [done|]. intros (? & [= <-] & Herrs & _). by rewrite Hu in Herrs.
Qed.

(** ** Validation *)

Lemma validate_config_Next c0 :
  validate_config c0 = Next () ↔ validator.Struct main.config c0 = None.
Proof. unfold validate_config. by destruct (validator.Struct main.config c0). Qed.

(** ** Defaults *)

Lemma setField_struct name fs v :
  defaults.setField (TStruct name fs) "" v = defaults.Set_fields defaults.setField fs v.
Proof.
  cbn [defaults.setField]. simpl. by destruct (defaults.isInitialValue v).
Qed.

Lemma setField_fields t v :
  kind t = KStruct →
  defaults.setField t "" v = defaults.Set_fields defaults.setField (fields t) v.
Proof. destruct t; try done. intros _. apply setField_struct. Qed.

Lemma Set_fields_of t v :
  kind t = KStruct →
  defaults.Set_ t (VPtr (Some v)) = defaults.Set_fields defaults.setField (fields t) v.
Proof. destruct t; try done. intros _. apply setField_struct. Qed.

Lemma set_defaults_Next c0 c1 :
  set_defaults c0 = Next c1 ↔
  defaults.Set_fields defaults.setField (fields main.config) c0 = Done c1.
Proof.
  unfold set_defaults. rewrite Set_fields_of by done.
  destruct (defaults.Set_fields _ _ c0); split; intros; simplify_eq; done.
Qed.

Lemma Set_peer pointee :
  defaults.Set_ main.peer (VPtr (Some pointee)) = Done (peer_defaults pointee).
Proof.
  rewrite Set_fields_of by done. unfold peer_defaults.
  destruct (setField_Done main.peer peer_scalar_defaults "" pointee) as [p Hp]; [by left|].
  rewrite setField_fields in Hp by done. by rewrite Hp.
Qed.

Lemma Set_config_Done c0 :
  ∃ c1, defaults.Set_fields defaults.setField (fields main.config) c0 = Done c1.
Proof.
  destruct (setField_Done main.config config_scalar_defaults "" c0) as [c1 Hc1]; [by left|].
  rewrite setField_fields in Hc1 by done. eauto.
Qed.

Lemma set_peer_default_Next pointee :
  set_peer_default (VPtr (Some pointee)) = Next (peer_defaults pointee).
Proof. unfold set_peer_default. by rewrite Set_peer. Qed.

Lemma set_peer_default_nil : set_peer_default (VPtr None)
  = Stop (Panics "reflect: call of reflect.Value.Type on zero Value").
Proof. done. Qed.

Lemma set_peer_defaults_unfold ρ config :
  set_peer_defaults ρ config = for_peers (peers_defaults ρ) set_peer_default config.
Proof. done. Qed.

Lemma build_prefix_filters_unfold ρ config :
  build_prefix_filters ρ config = for_peers (peers_prefixes ρ) build_prefix_filter config.
Proof. done. Qed.

Lemma parse_origin_routes_unfold config :
  parse_origin_routes config
  = for_range (strings_of config.["Prefixes"])
      (by_family "Prefixes4" "Prefixes6" "invalid origin prefix: ") config.
Proof. done. Qed.

(** ** VRRP *)

Lemma parse_vrrp_configs_unfold config :
  parse_vrrp_configs config
  = for_range (elements config.["VRRPInstances"]) (λ v _, parse_vrrp_config v) ().
Proof. done. Qed.

Arguments main.augments : simpl never.

(** ** The shape of the configuration between the blocks *)

Lemma config_field name f :
  field_named name main.config = Some f → f ∈ fields main.config ∧ Name f = name.
Proof. apply field_named_Some. Qed.

Lemma has_type_field t v name f :
  has_type t v → wf t → kind t = KStruct → field_named name t = Some f →
  has_type (Type_ f) v.[name].
Proof.
  destruct t as [| | | | | | | | |tn fs]; try done. intros Hv Hwf _ Hf.
  apply field_named_Some in Hf as [Hin <-].
  eapply has_type_get; [done | apply Hwf | done].
Qed.

Lemma has_type_shaped c : has_type main.config c → shaped c.
Proof.
  intros Hc. split_and!.
  - by apply has_type_names in Hc.
  - pose proof (has_type_field main.config c "Peers" _ Hc config_wf eq_refl eq_refl) as Hp.
    change (has_type (TMap (TPtr main.peer)) c.["Peers"]) in Hp.
    destruct (c.["Peers"]); try done. eauto.
  - pose proof (has_type_field main.config c "Augments" _ Hc config_wf eq_refl eq_refl) as Ha.
    change (has_type main.augments c.["Augments"]) in Ha.
    by apply has_type_names in Ha.
Qed.

Lemma shaped_Peers c : shaped c → "Peers" ∈ names c.
Proof. intros (-> & _). by_computation. Qed.

Lemma shaped_Augments c : shaped c → "Augments" ∈ names c.
Proof. intros (-> & _). by_computation. Qed.

Lemma shaped_Prefixes4 c : shaped c → "Prefixes4" ∈ names c.
Proof. intros (-> & _). by_computation. Qed.

Lemma shaped_Prefixes6 c : shaped c → "Prefixes6" ∈ names c.
Proof. intros (-> & _). by_computation. Qed.

Lemma shaped_Statics4 c : shaped c → "Statics4" ∈ names c.["Augments"].
Proof. intros (_ & _ & ->). by_computation. Qed.

Lemma shaped_Statics6 c : shaped c → "Statics6" ∈ names c.["Augments"].
Proof. intros (_ & _ & ->). by_computation. Qed.

(** ** The peers *)

Lemma map_peers_other f config a : a ≠ "Peers" → (map_peers f config).[a] = config.[a].
Proof.
  intros Ha. unfold map_peers. repeat case_match; try done. by apply get_set_ne.
Qed.

Lemma map_peers_names f config : names (map_peers f config) = names config.
Proof. unfold map_peers. repeat case_match; try done. apply names_set. Qed.

Lemma map_peers_Peers f config :
  "Peers" ∈ names config →
  map_of (map_peers f config).["Peers"] = f <$> map_of config.["Peers"].
Proof.
  intros Hin. unfold map_peers.
  destruct (config.["Peers"]) as [| | | |[m|]| |] eqn:Hp; rewrite ?Hp; simpl;
    rewrite ?fmap_empty; try done.
  by rewrite get_set_eq.
Qed.

Lemma map_peers_shaped f config : shaped config → shaped (map_peers f config).
Proof.
  intros Hs. pose proof Hs as (Hn & [m Hm] & Ha). split_and!.
  - by rewrite map_peers_names.
  - unfold map_peers. rewrite Hm. destruct m; [|eauto].
    rewrite get_set_eq by by apply shaped_Peers. eauto.
  - by rewrite map_peers_other.
Qed.

Lemma for_peers_map order body config config' :
  (∀ l, order l ≡ₚ l) → shaped config →
  for_peers order body config = Next config' ↔
    (∀ name peerData, map_of config.["Peers"] !! name = Some peerData →
                      is_Next (body peerData))
    ∧ config' = map_peers (λ v, VPtr (Some (passed (body v)))) config.
Proof.
  intros Hfair Hs. rewrite for_peers_spec; [|done|by apply shaped_Peers|apply Hs].
  unfold map_peers. rewrite entries_map_of.
  split; intros [Hall ->]; (split; [|done]); intros name peerData Hp; apply (Hall name).
  - by apply elem_of_map_to_list.
  - by apply elem_of_map_to_list in Hp.
Qed.

(** The loops over the peers do not depend on the order of the visit. *)
Lemma for_peers_order order1 order2 body config config' :
  (∀ l, order1 l ≡ₚ l) → (∀ l, order2 l ≡ₚ l) → shaped config →
  for_peers order1 body config = Next config' →
  for_peers order2 body config = Next config'.
Proof. intros H1 H2 Hs. by rewrite !for_peers_map. Qed.

Lemma set_peer_default_is_Next peerData :
  has_type (TPtr main.peer) peerData →
  is_Next (set_peer_default peerData) →
  ∃ pointee, peerData = VPtr (Some pointee) ∧ has_type main.peer pointee
             ∧ passed (set_peer_default peerData) = peer_defaults pointee.
Proof.
  destruct peerData as [| | | | |[pointee|]|]; try done. simpl. intros Hp _.
  exists pointee. by rewrite set_peer_default_Next.
Qed.

Lemma peer_defaults_has_type pointee :
  has_type main.peer pointee → has_type main.peer (peer_defaults pointee).
Proof.
  intros Hp. unfold peer_defaults.
  destruct (defaults.Set_fields _ _ pointee) as [p| |] eqn:Hset; try done.
  rewrite <- setField_fields in Hset by done.
  by eapply setField_has_type; [apply peer_wf| |].
Qed.

(** ** The static routes *)

Lemma parse_static_routes_Next ρ config config' :
  (∀ l, statics ρ l ≡ₚ l) → shaped config →
  parse_static_routes ρ (initialize_static_maps config) = Next config' ↔
    (∀ prefix nexthop, map_of config.["Augments"].["Statics"] !! prefix = Some nexthop →
                       static_ok prefix nexthop)
    ∧ config' = with_static_maps config.
Proof.
  intros Hfair Hs. apply parse_static_routes_spec; try done.
  - by apply shaped_Augments.
  - by apply shaped_Statics4.
  - by apply shaped_Statics6.
Qed.

Lemma with_static_maps_other config a :
  a ≠ "Augments" → (with_static_maps config).[a] = config.[a].
Proof. intros Ha. by apply get_set_ne. Qed.

Lemma with_static_maps_shaped config : shaped config → shaped (with_static_maps config).
Proof.
  intros Hs. pose proof Hs as (Hn & Hm & Ha). unfold with_static_maps. split_and!.
  - by rewrite names_set.
  - by rewrite get_set_ne.
  - rewrite get_set_eq by by apply shaped_Augments. by rewrite !names_set.
Qed.

(** ** The origin prefixes *)

Lemma parse_origin_routes_Next config config' :
  shaped config → parse_origin_routes config = Next config' →
  shaped config'
  ∧ Forall (λ x, is_Some (net.ParseCIDR x)) (strings_of config.["Prefixes"])
  ∧ (∀ a, a ≠ "Prefixes4" → a ≠ "Prefixes6" → config'.[a] = config.[a])
  ∧ strings_of config'.["Prefixes4"]
    = strings_of config.["Prefixes4"] ++ filter is_IPv6 (strings_of config.["Prefixes"])
  ∧ strings_of config'.["Prefixes6"]
    = strings_of config.["Prefixes6"] ++ filter is_IPv4 (strings_of config.["Prefixes"]).
Proof.
  intros Hs. rewrite parse_origin_routes_unfold. intros Hloop.
  apply by_family_loop in Hloop as (Hall & Hn & Hother & H4 & H6);
    [|done|by apply shaped_Prefixes4|by apply shaped_Prefixes6].
  split_and!; try done.
  destruct Hs as (Hn' & Hm & Ha). split_and!.
  - congruence.
  - by rewrite Hother.
  - by rewrite Hother.
Qed.

(** * What a successful load is

    [loads configBlob cfg] describes the configuration that [loadConfig]
    returns for [configBlob], and when it returns one, without reference
    to the order in which the maps are visited. *)

Lemma loading_has_type root c0 c1 c3 cfg :
  loading root c0 c1 c3 cfg → has_type main.config c0 ∧ has_type main.config c1.
Proof.
  intros [Herr <- _ Hset _ _ _ _ _ _].
  assert (has_type main.config (yaml.unmarshal main.config root).1.1) as Hc0
    by apply unmarshal_has_type, config_wf.
  split; [done|].
  rewrite <- setField_fields in Hset by done.
  by eapply setField_has_type; [apply config_wf| |].
Qed.

Lemma loading_shaped root c0 c1 c3 cfg :
  loading root c0 c1 c3 cfg → shaped c1 ∧ shaped c3 ∧ shaped cfg.
Proof.
  intros Hl. pose proof (loading_has_type _ _ _ _ _ Hl) as [_ Hc1%has_type_shaped].
  destruct Hl as [_ _ _ _ _ Ho _ _ _ ->].
  apply parse_origin_routes_Next in Ho as (Hc3 & _); [|by apply map_peers_shaped].
  split_and!; [done | done |].
  by apply map_peers_shaped, with_static_maps_shaped.
Qed.

Theorem loadConfig_loads ρ configBlob cfg :
  fair ρ →
  loadConfig ρ configBlob = Returns (Some cfg) None ↔ loads configBlob cfg.
Proof.
  intros (Hp1 & Hst & Hp2). rewrite loadConfig_Returns. split.
  - intros (c0 & c1 & c2 & c3 & c4 & H0 & H1 & H2 & H3 & H4 & H5 & H6 & H7).
    apply unmarshal_config_Next in H0 as (root & -> & Herr & Hc0).
    apply set_defaults_Next in H2.
    assert (has_type main.config c1) as Hc1.
    { rewrite <- setField_fields in H2 by done.
      eapply setField_has_type; [apply config_wf| |done].
      rewrite <- Hc0. apply unmarshal_has_type, config_wf. }
    pose proof (has_type_shaped _ Hc1) as Hs1.
    rewrite set_peer_defaults_unfold, for_peers_map in H3 by done.
    destruct H3 as [H3 ->].
    pose proof (map_peers_shaped with_defaults _ Hs1) as Hs2.
    pose proof H4 as (Hs3 & _)%parse_origin_routes_Next; [|done].
    rewrite parse_static_routes_Next in H5 by done. destruct H5 as [H5 ->].
    pose proof (with_static_maps_shaped _ Hs3) as Hs4.
    rewrite build_prefix_filters_unfold, for_peers_map in H7 by done.
    destruct H7 as [H7 ->].
    rewrite parse_vrrp_configs_unfold, for_range_check in H6.
    rewrite !with_static_maps_other in * by done.
    apply validate_config_Next in H1.
    exists root, c0, c1, c3. split; [done|]. by split.
  - intros (root & c0 & c1 & c3 & -> & Hl).
    pose proof (loading_shaped _ _ _ _ _ Hl) as (Hs1 & Hs3 & _).
    destruct Hl as [Herr Hc0 Hv Hset Hp Ho Hst' Hvr Hpf ->].
    exists c0, c1, (map_peers with_defaults c1), c3, (with_static_maps c3).
    split_and!.
    + apply unmarshal_config_Next. eauto.
    + by apply validate_config_Next.
    + by apply set_defaults_Next.
    + rewrite set_peer_defaults_unfold, for_peers_map by done. done.
    + done.
    + by rewrite parse_static_routes_Next.
    + rewrite parse_vrrp_configs_unfold, for_range_check.
      by rewrite with_static_maps_other.
    + rewrite build_prefix_filters_unfold.
      rewrite for_peers_map; [|done|by apply with_static_maps_shaped].
      split; [|done]. intros name peerData. rewrite with_static_maps_other by done. apply Hpf.
Qed.

(** * From the document to the decoded value *)

Lemma Zero_get name fs f :
  NoDup (Name <$> fs) → f ∈ fs → (Zero (TStruct name fs)).[Name f] = Zero (Type_ f).
Proof.
  intros Hnd Hin. simpl.
  rewrite (assoc_NoDup (Name f) (Zero (Type_ f))); [done | |].
  - by rewrite <- list_fmap_compose.
  - apply list_elem_of_fmap. by exists f.
Qed.

Lemma unmarshal_ptr e n :
  (∀ text, n ≠ yaml.Scalar text yaml.RNull) →
  yaml.unmarshal (TPtr e) n
  = (VPtr (Some (yaml.unmarshal e n).1.1), (yaml.unmarshal e n).1.2, (yaml.unmarshal e n).2).
Proof.
  intros Hnull. destruct n as [text r|cs|cs]; simpl.
  - destruct r; try (by destruct (Hnull text));
      by destruct (yaml.scalar (yaml.pointee e) text _).
  - destruct (yaml.pointee e); try done. by destruct (yaml.sequence _ _ cs).
  - destruct (yaml.pointee e); try done.
    + by destruct (yaml.mapping _ _ cs ∅).
    + by destruct (yaml.mappingStruct _ _ _ cs _ []).
Qed.

(** A field of a struct decoded without errors holds what the node under
    its key decodes to, or its zero value when the document has no such
    key; and that node decodes without errors. *)
Theorem unmarshal_field t root f key :
  kind t = KStruct → NoDup (Name <$> fields t) →
  (yaml.unmarshal t root).2 = [] →
  yaml.fieldByKey key (fields t) = Some f →
  match child key root with
  | Some c => (yaml.unmarshal t root).1.1.[Name f] = (yaml.unmarshal (Type_ f) c).1.1
              ∧ (yaml.unmarshal (Type_ f) c).2 = []
  | None => (yaml.unmarshal t root).1.1.[Name f] = Zero (Type_ f)
  end.
Proof.
  destruct t as [| | | | | | | | |name fs]; try done. intros _ Hnd Herr Hf.
  pose proof Hf as [Hin Hkey]%fieldByKey_Some. simpl in Hnd, Hf, Hin.
  destruct root as [text r|cs|cs].
  - cbn [child]. destruct r; simpl in Herr; try done. by apply (Zero_get name).
  - done.
  - cbn [child]. cbn [yaml.unmarshal yaml.pointee yaml.pointers] in *.
    destruct (assoc key cs) as [c|] eqn:Hc.
    + pose proof (mappingStruct_set yaml.unmarshal name fs cs key c f
                    ((λ f, (Name f, Zero (Type_ f))) <$> fs) [] Hc Hf) as Hset.
      destruct (yaml.mappingStruct yaml.unmarshal name fs cs _ []) as [out errs] eqn:Hms.
      simpl in *. apply Hset; [|done].
      rewrite <- list_fmap_compose. apply list_elem_of_fmap. by exists f.
    + pose proof (mappingStruct_untouched yaml.unmarshal name fs cs (Name f)
                    ((λ f, (Name f, Zero (Type_ f))) <$> fs) []) as Hun.
      destruct (yaml.mappingStruct yaml.unmarshal name fs cs _ []) as [out errs] eqn:Hms.
      simpl in *. subst errs.
      rewrite Hun; [by apply (Zero_get name)|].
      intros key' c' f' Hin' Hf' Heq.
      assert (key' = key) as -> by (by eapply fieldByKey_name).
      apply assoc_None in Hc. apply Hc. apply list_elem_of_fmap. by exists (key, c').
Qed.

(** A field without a key is left at its zero value, whatever the
    document. *)
Theorem unmarshal_hidden t root f :
  kind t = KStruct → NoDup (Name <$> fields t) →
  f ∈ fields t → yaml.key_of f = None →
  (yaml.unmarshal t root).1.1.[Name f] = Zero (Type_ f).
Proof.
  destruct t as [| | | | | | | | |name fs]; try done. intros _ Hnd Hin Hkey.
  simpl in Hnd, Hin.
  destruct root as [text r|cs|cs].
  - destruct r; by apply (Zero_get name).
  - by apply (Zero_get name).
  - cbn [yaml.unmarshal yaml.pointee yaml.pointers].
    pose proof (mappingStruct_untouched yaml.unmarshal name fs cs (Name f)
                  ((λ f, (Name f, Zero (Type_ f))) <$> fs) []) as Hun.
    destruct (yaml.mappingStruct yaml.unmarshal name fs cs _ []) as [out errs] eqn:Hms.
    simpl in *. rewrite Hun; [by apply (Zero_get name)|].
    intros key' c' f' Hin' [Hf' Hk']%fieldByKey_Some Heq.
    assert (f' = f) as ->; [by eapply field_name_inj | congruence].
Qed.

(** An entry of a map decoded without errors holds what the node under its
    key decodes to, and that node decodes without errors. *)
Theorem unmarshal_entry et n name :
  (yaml.unmarshal (TMap et) n).2 = [] →
  map_of (yaml.unmarshal (TMap et) n).1.1 !! name
    = (λ c, (yaml.unmarshal et c).1.1) <$> child name n
  ∧ (∀ c, child name n = Some c → (yaml.unmarshal et c).2 = []).
Proof.
  destruct n as [text r|cs|cs].
  - simpl. destruct r; try done.
  - done.
  - cbn [child]. cbn [yaml.unmarshal yaml.pointee yaml.pointers].
    pose proof (mapping_lookup yaml.unmarshal et (unmarshal_good et) cs ∅ name) as Hl.
    destruct (yaml.mapping yaml.unmarshal et cs ∅) as [out errs]. simpl in *.
    intros ->. destruct Hl as [Hl1 Hl2]; [done|]. rewrite Hl1.
    split; [by destruct (assoc name cs) | intros c Hc; by apply Hl2].
Qed.

(** * The configuration that a successful load returns *)

(** ** Defaults, field by field *)

Lemma Set_fields_field t v v' name f :
  kind t = KStruct → wf t → has_type t v →
  defaults.Set_fields defaults.setField (fields t) v = Done v' →
  field_named name t = Some f → Get "default" (Tag f) ≠ "-" →
  defaults.setField (Type_ f) (Get "default" (Tag f)) v.[name] = Done v'.[name].
Proof.
  destruct t as [| | | | | | | | |tn fs]; try done. intros _ [Hnd _] Hv Hset Hf Hd.
  apply field_named_Some in Hf as [Hin <-]. simpl in *.
  assert (∀ f', f' ∈ fs → Name f' ∈ names v) as Hnames.
  { intros f' Hin'. apply (has_type_names tn) in Hv. rewrite Hv. by apply list_elem_of_fmap_2. }
  destruct (Set_fields_get _ fs v v' Hnd Hnames Hset) as (_ & _ & Hfs).
  specialize (Hfs f Hin). by rewrite decide_False in Hfs.
Qed.

Lemma peer_defaults_Done pointee :
  defaults.Set_fields defaults.setField (fields main.peer) pointee
  = Done (peer_defaults pointee).
Proof.
  unfold peer_defaults.
  destruct (setField_Done main.peer peer_scalar_defaults "" pointee) as [p Hp]; [by left|].
  rewrite setField_fields in Hp by done. by rewrite Hp.
Qed.

(** A field that is not to be initialised is left alone. *)
Lemma setField_nil_slice e : defaults.setField (TSlice e) "" (VSlice None) = Done (VSlice None).
Proof. done. Qed.

Lemma setField_map e v : defaults.setField (TMap e) "" v = Done v.
Proof. done. Qed.

(** ** The root *)

Section loading.
Context {root : yaml.node} {c0 c1 c3 cfg : value}.
Hypothesis Hl : loading root c0 c1 c3 cfg.

Lemma loading_defaulted name f :
  field_named name main.config = Some f → Get "default" (Tag f) ≠ "-" →
  defaults.setField (Type_ f) (Get "default" (Tag f)) c0.[name] = Done c1.[name].
Proof.
  destruct (loading_has_type _ _ _ _ _ Hl) as [Hc0 _].
  apply Set_fields_field; [done | apply config_wf | done | apply Hl].
Qed.

Lemma loading_hidden name f :
  field_named name main.config = Some f → yaml.key_of f = None →
  c0.[name] = Zero (Type_ f).
Proof.
  intros [Hin <-]%field_named_Some Hkey. rewrite <- (decoded_value _ _ _ _ _ Hl).
  by apply unmarshal_hidden; [|apply config_names_NoDup| |].
Qed.

Lemma loading_other a :
  a ∉ ["Peers"; "Prefixes4"; "Prefixes6"; "Augments"] → cfg.[a] = c1.[a].
Proof.
  intros Ha. apply not_elem_of_cons in Ha as [? Ha].
  apply not_elem_of_cons in Ha as [? Ha]. apply not_elem_of_cons in Ha as [? Ha].
  apply not_elem_of_cons in Ha as [? _].
  destruct (loading_shaped _ _ _ _ _ Hl) as (Hs1 & _ & _).
  destruct Hl as [_ _ _ _ _ Ho _ _ _ ->].
  apply parse_origin_routes_Next in Ho as (_ & _ & Hother & _); [|by apply map_peers_shaped].
  rewrite map_peers_other, with_static_maps_other, Hother, map_peers_other by done. done.
Qed.

Lemma loading_Prefixes4_nil : c1.["Prefixes4"] = VSlice None.
Proof.
  pose proof (loading_defaulted "Prefixes4" _ eq_refl) as Hd.
  rewrite (loading_hidden "Prefixes4" _ eq_refl eq_refl) in Hd.
  specialize (Hd ltac:(done)). by injection Hd.
Qed.

Lemma loading_Prefixes6_nil : c1.["Prefixes6"] = VSlice None.
Proof.
  pose proof (loading_defaulted "Prefixes6" _ eq_refl) as Hd.
  rewrite (loading_hidden "Prefixes6" _ eq_refl eq_refl) in Hd.
  specialize (Hd ltac:(done)). by injection Hd.
Qed.

(** The origin prefixes, by family: the IPv6 prefixes are in [Prefixes4]
    and the IPv4 prefixes in [Prefixes6]. *)
Lemma loading_Prefixes :
  Forall (λ x, is_Some (net.ParseCIDR x)) (strings_of cfg.["Prefixes"])
  ∧ strings_of cfg.["Prefixes4"] = filter is_IPv6 (strings_of cfg.["Prefixes"])
  ∧ strings_of cfg.["Prefixes6"] = filter is_IPv4 (strings_of cfg.["Prefixes"]).
Proof.
  rewrite (loading_other "Prefixes") by by_computation.
  destruct (loading_shaped _ _ _ _ _ Hl) as (Hs1 & _ & _).
  pose proof loading_Prefixes4_nil as H4. pose proof loading_Prefixes6_nil as H6.
  destruct Hl as [_ _ _ _ _ Ho _ _ _ ->].
  apply parse_origin_routes_Next in Ho as (_ & Hall & _ & Ho4 & Ho6);
    [|by apply map_peers_shaped].
  rewrite !map_peers_other, !with_static_maps_other by done.
  rewrite !map_peers_other in * by done.
  rewrite Ho4, Ho6, H4, H6. done.
Qed.

(** The static routes. *)
Lemma loading_Statics :
  cfg.["Augments"].["Statics"] = c3.["Augments"].["Statics"]
  ∧ cfg.["Augments"].["Statics4"]
    = VMap (Some (filter (λ kv, is_IPv4 kv.1) (map_of c3.["Augments"].["Statics"])))
  ∧ cfg.["Augments"].["Statics6"]
    = VMap (Some (filter (λ kv, is_IPv6 kv.1) (map_of c3.["Augments"].["Statics"]))).
Proof.
  destruct (loading_shaped _ _ _ _ _ Hl) as (_ & Hs3 & _).
  rewrite (returned _ _ _ _ _ Hl), map_peers_other by done.
  unfold with_static_maps. rewrite get_set_eq by by apply shaped_Augments.
  split_and!.
  - by rewrite !get_set_ne.
  - rewrite get_set_ne, get_set_eq; [done | by apply shaped_Statics4 | done].
  - rewrite get_set_eq; [done|]. rewrite names_set. by apply shaped_Statics6.
Qed.

(** The VRRP instances are those of the document. *)
Lemma loading_VRRPInstances :
  cfg.["VRRPInstances"] = c3.["VRRPInstances"].
Proof.
  by rewrite (returned _ _ _ _ _ Hl), map_peers_other, with_static_maps_other.
Qed.

(** ** The peers *)

Lemma loading_Peers_decoded : c1.["Peers"] = c0.["Peers"].
Proof.
  pose proof (loading_defaulted "Peers" _ eq_refl ltac:(done)) as Hd.
  change (Type_ _) with (TMap (TPtr main.peer)) in Hd.
  change (Get "default" _) with "" in Hd.
  rewrite setField_map in Hd. by injection Hd.
Qed.

Lemma loading_Peers :
  map_of cfg.["Peers"] = (with_prefix_sets ∘ with_defaults) <$> map_of c0.["Peers"].
Proof.
  destruct (loading_shaped _ _ _ _ _ Hl) as (Hs1 & Hs3 & _).
  rewrite <- loading_Peers_decoded.
  destruct Hl as [_ _ _ _ _ Ho _ _ _ ->].
  apply parse_origin_routes_Next in Ho as (_ & _ & Hother & _); [|by apply map_peers_shaped].
  rewrite map_peers_Peers by (by apply shaped_Peers, with_static_maps_shaped).
  rewrite with_static_maps_other, Hother by done.
  rewrite map_peers_Peers by (by apply shaped_Peers).
  by rewrite map_fmap_compose.
Qed.

(** An entry of the decoded map of peers is what a node of the document
    decodes to. *)
Lemma loading_peer_decoded name v :
  map_of c0.["Peers"] !! name = Some v →
  ∃ pn, child "peers" root ≫= child name = Some pn
        ∧ (yaml.unmarshal (TPtr main.peer) pn).1.1 = v
        ∧ (yaml.unmarshal (TPtr main.peer) pn).2 = [].
Proof.
  intros Hv. rewrite <- (decoded_value _ _ _ _ _ Hl) in Hv.
  pose proof (unmarshal_field main.config root _ "peers" eq_refl config_names_NoDup
                (decoded_without_errors _ _ _ _ _ Hl) eq_refl) as Hroot.
  change (Name _) with "Peers" in Hroot.
  change (Type_ _) with (TMap (TPtr main.peer)) in Hroot.
  destruct (child "peers" root) as [pc|] eqn:Hpc; [|by rewrite Hroot in Hv].
  destruct Hroot as [Hroot Hpc_err]. rewrite Hroot in Hv.
  apply (unmarshal_entry (TPtr main.peer) pc name) in Hpc_err as [Hentry Hpn_err].
  rewrite Hentry in Hv.
  destruct (child name pc) as [pn|] eqn:Hpn; [|done].
  exists pn. split_and!; [done | by injection Hv | by apply Hpn_err].
Qed.
End loading.

Lemma unmarshal_ptr_Some e pn p0 :
  (yaml.unmarshal (TPtr e) pn).1.1 = VPtr (Some p0) →
  (yaml.unmarshal e pn).1.1 = p0 ∧ (yaml.unmarshal (TPtr e) pn).2 = (yaml.unmarshal e pn).2.
Proof.
  intros Hp0. assert (∀ text, pn ≠ yaml.Scalar text yaml.RNull) as Hnull.
  { intros text ->. done. }
  rewrite (unmarshal_ptr _ _ Hnull) in *. simpl in *. by injection Hp0.
Qed.

Lemma passed_Next v : passed (Next v) = v.
Proof. done. Qed.

Lemma with_defaults_ptr p0 : with_defaults (VPtr (Some p0)) = VPtr (Some (peer_defaults p0)).
Proof. unfold with_defaults. by rewrite set_peer_default_Next, passed_Next. Qed.

Lemma build_prefix_filter_ptr pointee :
  build_prefix_filter (VPtr (Some pointee))
  = for_range (strings_of pointee.["Prefixes"])
      (by_family "PrefixSet4" "PrefixSet6" "invalid prefix: ") pointee.
Proof. done. Qed.

Section loading_peers.
Context {root : yaml.node} {c0 c1 c3 cfg : value}.
Hypothesis Hl : loading root c0 c1 c3 cfg.

(** Every peer of the returned configuration comes from a node of the
    document, through the defaults and the sorting of its prefixes. *)
Lemma loading_peer name peerData :
  map_of cfg.["Peers"] !! name = Some peerData →
  ∃ pn p0 p3,
    child "peers" root ≫= child name = Some pn
    ∧ (yaml.unmarshal main.peer pn).2 = []
    ∧ (yaml.unmarshal main.peer pn).1.1 = p0
    ∧ has_type main.peer p0
    ∧ for_range (strings_of (peer_defaults p0).["Prefixes"])
        (by_family "PrefixSet4" "PrefixSet6" "invalid prefix: ") (peer_defaults p0)
      = Next p3
    ∧ peerData = VPtr (Some p3).
Proof.
  rewrite (loading_Peers Hl), lookup_fmap.
  destruct (map_of c0.["Peers"] !! name) as [v|] eqn:Hv; [|done].
  intros [= <-].
  destruct (loading_peer_decoded Hl name v Hv) as (pn & Hpn & Hdec & Herr).
  assert (has_type (TPtr main.peer) v) as Hty.
  { rewrite <- Hdec. apply unmarshal_has_type, peer_wf. }
  pose proof (peers_defaulted _ _ _ _ _ Hl name v) as Hnext.
  rewrite (loading_Peers_decoded Hl) in Hnext. specialize (Hnext Hv).
  apply set_peer_default_is_Next in Hnext as (p0 & -> & Hp0ty & _); [|done].
  apply unmarshal_ptr_Some in Hdec as Hp0. destruct Hp0 as [Hp0 Herr'].
  rewrite Herr' in Herr.
  destruct (loading_shaped _ _ _ _ _ Hl) as (Hs1 & Hs3 & _).
  pose proof (prefix_filters_built _ _ _ _ _ Hl name (with_defaults (VPtr (Some p0)))) as Hpf.
  pose proof (origin_routes_parsed _ _ _ _ _ Hl) as Ho.
  apply parse_origin_routes_Next in Ho as (_ & _ & Hother & _); [|by apply map_peers_shaped].
  rewrite Hother in Hpf by done.
  rewrite map_peers_Peers in Hpf by (by apply shaped_Peers).
  rewrite lookup_fmap, (loading_Peers_decoded Hl), Hv in Hpf.
  specialize (Hpf eq_refl).
  rewrite with_defaults_ptr, build_prefix_filter_ptr in Hpf.
  apply is_Next_passed in Hpf.
  eexists pn, p0, _. split_and!; [done | done | done | done | exact Hpf |].
  unfold compose. rewrite with_defaults_ptr. unfold with_prefix_sets.
  by rewrite build_prefix_filter_ptr.
Qed.
End loading_peers.

(** * Scalar fields: from the document to the returned configuration *)

Lemma field_named_elem t f :
  NoDup (Name <$> fields t) → f ∈ fields t → field_named (Name f) t = Some f.
Proof.
  intros Hnd Hin. unfold field_named.
  destruct (list_find_elem_of (λ f', Name f' = Name f) (fields t) f Hin eq_refl)
    as [[i f'] Hfind].
  rewrite Hfind. simpl. f_equal.
  apply list_find_Some in Hfind as (Hi & Hname & _).
  eapply field_name_inj; [done | by eapply list_elem_of_lookup_2 | done | done].
Qed.

(** [setField] on a field of a scalar type. *)
Lemma setField_scalar t d v :
  is_scalar t →
  defaults.setField t d v
  = if decide (d = "") then Done v
    else if defaults.isInitialValue v then defaults.initialize t d v else Done v.
Proof.
  destruct t; try done; intros _; cbn [defaults.setField];
    unfold defaults.shouldInitializeField;
    (case_decide as Hd; [by rewrite bool_decide_true | rewrite bool_decide_false by done]);
    cbn [negb]; destruct (defaults.isInitialValue v); try done;
    unfold defaults.initialize; by repeat case_match.
Qed.

(** A scalar that holds its zero value. *)
Lemma scalar_zero t v :
  is_scalar t → has_type t v → defaults.isInitialValue v = true → v = Zero t.
Proof.
  destruct t, v; try done; simpl; intros _ _.
  - by intros ->%negb_true_iff.
  - by intros ->%Z.eqb_eq.
  - by intros ->%Z.eqb_eq.
  - by intros ->%Z.eqb_eq.
  - by intros ->%Z.eqb_eq.
  - by intros ->%bool_decide_eq_true.
Qed.

Lemma setField_defaulted f v x :
  is_scalar (Type_ f) → has_type (Type_ f) v → Get "default" (Tag f) ≠ "-" →
  defaults.setField (Type_ f) (Get "default" (Tag f)) v = Done x →
  x = defaulted_value f v.
Proof.
  intros Hs Hv Hdash. rewrite setField_scalar by done.
  unfold defaulted_value, declared_default. cbn zeta.
  case_decide as Hd.
  - rewrite decide_True by by left. by intros [= <-].
  - rewrite decide_False by (by intros [?|?]).
    destruct (defaults.isInitialValue v) eqn:Hz.
    + rewrite (scalar_zero _ v Hs Hv Hz). intros ->. done.
    + intros [= <-]. by destruct (defaults.initialize _ _ _).
Qed.

(** What [defaults.Set] leaves in a scalar field of a struct. *)
Lemma Set_fields_scalar t v v' f :
  kind t = KStruct → wf t → has_type t v →
  defaults.Set_fields defaults.setField (fields t) v = Done v' →
  f ∈ fields t → is_scalar (Type_ f) →
  v'.[Name f] = defaulted_value f v.[Name f].
Proof.
  destruct t as [| | | | | | | | |tn fs]; try done. intros _ [Hnd Hwf] Hv Hset Hin Hs.
  cbn [fields] in *.
  assert (∀ f', f' ∈ fs → Name f' ∈ names v) as Hnames.
  { intros f' Hin'. apply (has_type_names tn) in Hv. rewrite Hv. by apply list_elem_of_fmap_2. }
  destruct (Set_fields_get _ fs v v' Hnd Hnames Hset) as (_ & _ & Hfs).
  specialize (Hfs f Hin). case_decide as Hdash.
  - rewrite Hfs. unfold defaulted_value, declared_default. cbn zeta.
    by rewrite decide_True by by right.
  - apply setField_defaulted in Hfs; [done | done | | done].
    by eapply has_type_get.
Qed.

(** The value that a document gives a field: what the node under the key
    of the field decodes to, or the zero value when there is no such key. *)
Lemma unmarshal_field_value t root f key :
  kind t = KStruct → NoDup (Name <$> fields t) →
  (yaml.unmarshal t root).2 = [] →
  yaml.fieldByKey key (fields t) = Some f →
  (yaml.unmarshal t root).1.1.[Name f]
  = match child key root with
    | Some c => (yaml.unmarshal (Type_ f) c).1.1
    | None => Zero (Type_ f)
    end.
Proof.
  intros Hk Hnd Herr Hf.
  pose proof (unmarshal_field t root f key Hk Hnd Herr Hf) as H.
  destruct (child key root); [by destruct H | done].
Qed.

(** A scalar field of a struct that is decoded and then given its
    defaults. *)
Lemma decoded_defaulted t root v' f key :
  kind t = KStruct → wf t →
  (yaml.unmarshal t root).2 = [] →
  defaults.Set_fields defaults.setField (fields t) (yaml.unmarshal t root).1.1 = Done v' →
  yaml.fieldByKey key (fields t) = Some f → is_scalar (Type_ f) →
  v'.[Name f]
  = defaulted_value f match child key root with
                      | Some c => (yaml.unmarshal (Type_ f) c).1.1
                      | None => Zero (Type_ f)
                      end.
Proof.
  intros Hk Hwf Herr Hset Hf Hs.
  assert (NoDup (Name <$> fields t)) as Hnd.
  { destruct t; try done. apply Hwf. }
  rewrite <- (unmarshal_field_value t root f key) by done.
  apply (Set_fields_scalar t); try done.
  - by apply unmarshal_has_type.
  - by apply fieldByKey_Some in Hf as [? _].
Qed.

(** The fields of the root that [loadConfig] writes after the defaults
    are not scalars. *)
Lemma config_scalar_untouched f :
  f ∈ fields main.config → is_scalar (Type_ f) →
  Name f ∉ ["Peers"; "Prefixes4"; "Prefixes6"; "Augments"].
Proof.
  revert f.
  apply (Forall_forall (λ f, is_scalar (Type_ f) →
                             Name f ∉ ["Peers"; "Prefixes4"; "Prefixes6"; "Augments"])).
  by_computation.
Qed.

Lemma peer_scalar_untouched f :
  f ∈ fields main.peer → is_scalar (Type_ f) →
  Name f ≠ "PrefixSet4" ∧ Name f ≠ "PrefixSet6".
Proof.
  revert f.
  apply (Forall_forall (λ f, is_scalar (Type_ f) →
                             Name f ≠ "PrefixSet4" ∧ Name f ≠ "PrefixSet6")).
  by_computation.
Qed.

Lemma peer_PrefixSet4 : field_named "PrefixSet4" main.peer
  = Some (Field "PrefixSet4" (TSlice TString) [("yaml", "-"); ("description", "-")]).
Proof. done. Qed.

Lemma peer_PrefixSet6 : field_named "PrefixSet6" main.peer
  = Some (Field "PrefixSet6" (TSlice TString) [("yaml", "-"); ("description", "-")]).
Proof. done. Qed.

(** The prefix sets of a decoded peer are nil, and so they are after the
    defaults. *)
Lemma peer_prefix_sets_nil pn name :
  name = "PrefixSet4" ∨ name = "PrefixSet6" →
  (peer_defaults (yaml.unmarshal main.peer pn).1.1).[name] = VSlice None.
Proof.
  intros Hname.
  assert (∃ f, field_named name main.peer = Some f ∧ yaml.key_of f = None
               ∧ Type_ f = TSlice TString ∧ Get "default" (Tag f) = "") as (f & Hf & Hkey & Hty & Hd).
  { destruct Hname as [-> | ->]; eexists; split_and!; done. }
  pose proof (field_named_Some _ _ _ Hf) as [Hin Hn].
  pose proof (Set_fields_field main.peer (yaml.unmarshal main.peer pn).1.1
                (peer_defaults (yaml.unmarshal main.peer pn).1.1) name f eq_refl peer_wf
                (unmarshal_has_type _ _ peer_wf) (peer_defaults_Done _) Hf) as Hset.
  rewrite Hd in Hset. specialize (Hset ltac:(done)).
  rewrite Hty in Hset. rewrite <- Hn in Hset.
  rewrite (unmarshal_hidden main.peer pn f eq_refl peer_names_NoDup Hin Hkey), Hty in Hset.
  rewrite setField_nil_slice in Hset. rewrite Hn in Hset.
  by injection Hset.
Qed.

Section loading.
Context {root : yaml.node} {c0 c1 c3 cfg : value}.
Hypothesis Hl : loading root c0 c1 c3 cfg.

(** A scalar field of the root. *)
Lemma loading_scalar key f :
  yaml.fieldByKey key (fields main.config) = Some f → is_scalar (Type_ f) →
  cfg.[Name f]
  = defaulted_value f match child key root with
                      | Some c => (yaml.unmarshal (Type_ f) c).1.1
                      | None => Zero (Type_ f)
                      end.
Proof.
  intros Hf Hs. pose proof Hf as [Hin _]%fieldByKey_Some.
  rewrite (loading_other Hl) by by apply config_scalar_untouched.
  rewrite <- (decoded_value _ _ _ _ _ Hl) in Hl.
  apply (decoded_defaulted main.config); try done; [apply config_wf | apply Hl | apply Hl].
Qed.

(** The peers of the returned configuration are those of the document. *)
Lemma loading_peer_names name :
  is_Some (map_of cfg.["Peers"] !! name) ↔ is_Some (peer_node root name).
Proof.
  rewrite (loading_Peers Hl), lookup_fmap, fmap_is_Some.
  rewrite <- (decoded_value _ _ _ _ _ Hl).
  pose proof (unmarshal_field main.config root _ "peers" eq_refl config_names_NoDup
                (decoded_without_errors _ _ _ _ _ Hl) eq_refl) as Hroot.
  change (Name _) with "Peers" in Hroot.
  change (Type_ _) with (TMap (TPtr main.peer)) in Hroot.
  unfold peer_node. destruct (child "peers" root) as [pc|] eqn:Hpc.
  - destruct Hroot as [-> Hpc_err]. cbn [mbind option_bind].
    apply (unmarshal_entry (TPtr main.peer) pc name) in Hpc_err as [-> _].
    by rewrite fmap_is_Some.
  - rewrite Hroot. cbn. rewrite lookup_empty. split; by intros [? ?].
Qed.

(** A peer of the returned configuration: its fields but the prefix sets
    are those of the decoded peer after the defaults, and the prefix
    sets hold its prefixes by family. *)
Lemma loading_peer_fields name peerData :
  map_of cfg.["Peers"] !! name = Some peerData →
  ∃ pn p,
    peer_node root name = Some pn
    ∧ peerData = VPtr (Some p)
    ∧ (yaml.unmarshal main.peer pn).2 = []
    ∧ (∀ a, a ≠ "PrefixSet4" → a ≠ "PrefixSet6" →
            p.[a] = (peer_defaults (yaml.unmarshal main.peer pn).1.1).[a])
    ∧ Forall (λ x, is_Some (net.ParseCIDR x)) (strings_of p.["Prefixes"])
    ∧ strings_of p.["PrefixSet4"] = filter is_IPv6 (strings_of p.["Prefixes"])
    ∧ strings_of p.["PrefixSet6"] = filter is_IPv4 (strings_of p.["Prefixes"]).
Proof.
  intros Hp. destruct (loading_peer Hl name peerData Hp)
    as (pn & p0 & p3 & Hpn & Herr & <- & Hty & Hloop & ->).
  exists pn, p3. split_and!; try done.
  all: apply peer_defaults_has_type in Hty as Hty'.
  all: apply (has_type_names "peer") in Hty' as Hnames.
  all: apply by_family_loop in Hloop as (Hall & _ & Hother & H4 & H6);
    [|done|rewrite Hnames; by_computation|rewrite Hnames; by_computation].
  - done.
  - by rewrite Hother.
  - rewrite H4, peer_prefix_sets_nil, Hother by auto. done.
  - rewrite H6, peer_prefix_sets_nil, Hother by auto. done.
Qed.

(** A scalar field of a peer. *)
Lemma loading_peer_scalar name p pn key f :
  map_of cfg.["Peers"] !! name = Some (VPtr (Some p)) →
  peer_node root name = Some pn →
  yaml.fieldByKey key (fields main.peer) = Some f → is_scalar (Type_ f) →
  p.[Name f]
  = defaulted_value f match child key pn with
                      | Some c => (yaml.unmarshal (Type_ f) c).1.1
                      | None => Zero (Type_ f)
                      end.
Proof.
  intros Hp Hpn Hf Hs. pose proof Hf as [Hin _]%fieldByKey_Some.
  destruct (loading_peer_fields name _ Hp) as (pn' & p' & Hpn' & [= <-] & Herr & Hother & _).
  assert (pn' = pn) as -> by congruence.
  destruct (peer_scalar_untouched f Hin Hs) as [? ?].
  rewrite Hother by done.
  apply (decoded_defaulted main.peer); try done; [apply peer_wf | apply peer_defaults_Done].
Qed.
End loading.

(** A hypothesis at a concrete input holds by evaluation. *)
Ltac evaluate := vm_compute; reflexivity.

(** The field of the struct type [t] with key [key], handed to [k]. *)
Ltac with_field key t k :=
  let r := eval vm_compute in (yaml.fieldByKey key (fields t)) in
  lazymatch r with Some ?f => k f end.

(** The node under [key] in [n], handed to [k]. *)
Ltac with_child key n k :=
  let r := eval vm_compute in (child key n) in
  lazymatch r with Some ?c => k c end.

(** * The schedules *)

Lemma fair_in_order : fair in_order.
Proof. by repeat split. Qed.

Lemma fair_reversed : fair reversed.
Proof. repeat split; intros l; apply reverse_Permutation. Qed.

(** * Prefixes by family *)

Lemma partitions_by_family l :
  Forall (λ x, is_Some (net.ParseCIDR x)) l →
  partitions l (filter is_IPv6 l) (filter is_IPv4 l).
Proof.
  intros Hall. split; intros x; rewrite !list_elem_of_filter.
  - split; [|tauto]. intros Hin. rewrite Forall_forall in Hall.
    destruct (proj1 (family_total x) (Hall x Hin)); tauto.
  - intros [H6 _] [H4 _]. by eapply family_exclusive.
Qed.

(** C1: after a successful load, [Prefixes4] and [Prefixes6], as sets,
    have union [Prefixes] and are disjoint; and so have [PrefixSet4] and
    [PrefixSet6] of every peer, for the [Prefixes] of that peer.  (That all
    the prefixes parse follows from the success of the load.) *)
Theorem prefixes_partitioned ρ configBlob cfg :
  fair ρ → loadConfig ρ configBlob = Returns (Some cfg) None →
  partitions (strings_of cfg.["Prefixes"])
    (strings_of cfg.["Prefixes4"]) (strings_of cfg.["Prefixes6"])
  ∧ ∀ name peerData,
      map_of cfg.["Peers"] !! name = Some peerData →
      ∃ p, peerData = VPtr (Some p)
           ∧ partitions (strings_of p.["Prefixes"])
               (strings_of p.["PrefixSet4"]) (strings_of p.["PrefixSet6"]).
Proof.
  intros Hfair (root & c0 & c1 & c3 & -> & Hl)%loadConfig_loads; [|done]. split.
  - destruct (loading_Prefixes Hl) as (Hall & -> & ->). by apply partitions_by_family.
  - intros name peerData Hp.
    destruct (loading_peer_fields Hl name peerData Hp)
      as (pn & p & _ & -> & _ & _ & Hall & H4 & H6).
    exists p. split; [done|]. rewrite H4, H6. by apply partitions_by_family.
Qed.

Lemma prefixes_partitioned_example :
  partitions (strings_of example_config.["Prefixes"])
    (strings_of example_config.["Prefixes4"]) (strings_of example_config.["Prefixes6"])
  ∧ ∀ name peerData,
      map_of example_config.["Peers"] !! name = Some peerData →
      ∃ p, peerData = VPtr (Some p)
           ∧ partitions (strings_of p.["Prefixes"])
               (strings_of p.["PrefixSet4"]) (strings_of p.["PrefixSet6"]).
Proof.
  apply (prefixes_partitioned in_order (yaml.Document example)).
  - by repeat split.
  - vm_compute. reflexivity.
Defined.

(** The origin prefixes by family, as [loadConfig] sorts them: the IPv6
    prefixes are in [Prefixes4] and the IPv4 prefixes in [Prefixes6], each
    in the order of [Prefixes]. *)
Theorem origin_prefixes_sorted ρ configBlob cfg :
  fair ρ → loadConfig ρ configBlob = Returns (Some cfg) None →
  strings_of cfg.["Prefixes4"] = filter is_IPv6 (strings_of cfg.["Prefixes"])
  ∧ strings_of cfg.["Prefixes6"] = filter is_IPv4 (strings_of cfg.["Prefixes"]).
Proof.
  intros Hfair (root & c0 & c1 & c3 & -> & Hl)%loadConfig_loads; [|done].
  by destruct (loading_Prefixes Hl) as (_ & -> & ->).
Qed.

(** C2, which the code does not meet: the only origin prefix of
    [one_prefix] is an IPv4 prefix, and the configuration returned has it
    in [Prefixes6], with [Prefixes4] left nil. *)
Theorem ipv4_origin_prefix_in_Prefixes6 :
  ∃ cfg, loadConfig in_order (yaml.Document one_prefix) = Returns (Some cfg) None
         ∧ strings_of cfg.["Prefixes"] = ["192.0.2.0/24"]
         ∧ (net.ParseCIDR "192.0.2.0/24" ≫= net.To4) = Some [192; 0; 2; 0]%Z
         ∧ cfg.["Prefixes4"] = VSlice None
         ∧ strings_of cfg.["Prefixes6"] = ["192.0.2.0/24"].
Proof. eexists. split_and!; vm_compute; reflexivity. Qed.

(** * VRRP *)

(** C3, which the code does not meet: the VRRP instance of [one_vrrp] has
    state [primary], the load succeeds, and the instance of the
    configuration returned still has state [primary]. *)
Theorem primary_state_kept :
  ∃ cfg, loadConfig in_order (yaml.Document one_vrrp) = Returns (Some cfg) None
         ∧ (λ v, str v.["State"]) <$> elements cfg.["VRRPInstances"] = ["primary"].
Proof. eexists. split; vm_compute; reflexivity. Qed.

(** * Defaults *)

(** C4 as the code has it: a scalar field that the document sets holds the
    value set, unless that is the zero value of its type and the field
    declares a default: then it holds the default.  For the fields of the
    root and of every peer. *)
Theorem explicit_value_kept_unless_zero ρ root cfg :
  fair ρ → loadConfig ρ (yaml.Document root) = Returns (Some cfg) None →
  (∀ key f c,
     yaml.fieldByKey key (fields main.config) = Some f → is_scalar (Type_ f) →
     child key root = Some c →
     cfg.[Name f] = defaulted_value f (yaml.unmarshal (Type_ f) c).1.1)
  ∧ (∀ name p pn key f c,
       map_of cfg.["Peers"] !! name = Some (VPtr (Some p)) →
       peer_node root name = Some pn →
       yaml.fieldByKey key (fields main.peer) = Some f → is_scalar (Type_ f) →
       child key pn = Some c →
       p.[Name f] = defaulted_value f (yaml.unmarshal (Type_ f) c).1.1).
Proof.
  intros Hfair (root' & c0 & c1 & c3 & [= <-] & Hl)%loadConfig_loads; [|done]. split.
  - intros key f c Hf Hs Hc. rewrite (loading_scalar Hl key f Hf Hs). by rewrite Hc.
  - intros name p pn key f c Hp Hpn Hf Hs Hc.
    rewrite (loading_peer_scalar Hl name p pn key f Hp Hpn Hf Hs). by rewrite Hc.
Qed.

Lemma explicit_value_example :
  example_config.["ASN"] = VInt 65001
  ∧ (peer_of example_config "upstream").["ASN"] = VInt 64500
  ∧ (peer_of example_config "upstream").["LocalPref"] = VInt 100.
Proof.
  destruct (explicit_value_kept_unless_zero in_order example example_config)
    as [Hroot Hpeer].
  - by repeat split.
  - vm_compute. reflexivity.
  - split_and!.
    + with_field "asn" main.config ltac:(fun f =>
      with_child "asn" example ltac:(fun c =>
        etrans; [apply (Hroot "asn" f c); [evaluate | exact I | evaluate] | evaluate])).
    + with_field "asn" main.peer ltac:(fun f =>
      with_child "asn" upstream ltac:(fun c =>
        etrans;
        [apply (Hpeer "upstream" (peer_of example_config "upstream") upstream "asn" f c);
         [evaluate | evaluate | evaluate | exact I | evaluate] | evaluate])).
    + with_field "local-pref" main.peer ltac:(fun f =>
      with_child "local-pref" upstream ltac:(fun c =>
        etrans;
        [apply (Hpeer "upstream" (peer_of example_config "upstream") upstream "local-pref" f c);
         [evaluate | evaluate | evaluate | exact I | evaluate] | evaluate])).
Defined.

(** C4, as the specification has it, fails: the peer [upstream] of
    [example] sets [local-pref] to 0, the load succeeds, and the peer of the
    configuration returned has [LocalPref] 100, the declared default. *)
Theorem explicit_zero_overwritten :
  peer_node example "upstream" ≫= child "local-pref" = Some (number "0" 0)
  ∧ (yaml.unmarshal TUint (number "0" 0)).1.1 = VInt 0
  ∧ loadConfig in_order (yaml.Document example) = Returns (Some example_config) None
  ∧ (peer_of example_config "upstream").["LocalPref"] = VInt 100.
Proof. split_and!; vm_compute; reflexivity. Qed.

Lemma scalar_Zero_initial t : is_scalar t → defaults.isInitialValue (Zero t) = true.
Proof. by destruct t. Qed.

Lemma config_defaults_scalar f :
  f ∈ fields main.config → is_Some (declared_default f) → is_scalar (Type_ f).
Proof.
  revert f.
  apply (Forall_forall (λ f, is_Some (declared_default f) → is_scalar (Type_ f))).
  by_computation.
Qed.

Lemma peer_defaults_scalar f :
  f ∈ fields main.peer → is_Some (declared_default f) → is_scalar (Type_ f).
Proof.
  revert f.
  apply (Forall_forall (λ f, is_Some (declared_default f) → is_scalar (Type_ f))).
  by_computation.
Qed.

Lemma defaulted_zero f d :
  is_scalar (Type_ f) → declared_default f = Some d →
  defaulted_value f (Zero (Type_ f)) = d.
Proof.
  intros Hs Hd. unfold defaulted_value. by rewrite Hd, scalar_Zero_initial.
Qed.

(** C5: after a successful load, a field with a declared default whose key
    the document does not have holds the declared default; for the fields
    of the root and of every peer. *)
Theorem omitted_field_holds_default ρ root cfg :
  fair ρ → loadConfig ρ (yaml.Document root) = Returns (Some cfg) None →
  (∀ key f d,
     yaml.fieldByKey key (fields main.config) = Some f → declared_default f = Some d →
     child key root = None →
     cfg.[Name f] = d)
  ∧ (∀ name p pn key f d,
       map_of cfg.["Peers"] !! name = Some (VPtr (Some p)) →
       peer_node root name = Some pn →
       yaml.fieldByKey key (fields main.peer) = Some f → declared_default f = Some d →
       child key pn = None →
       p.[Name f] = d).
Proof.
  intros Hfair (root' & c0 & c1 & c3 & [= <-] & Hl)%loadConfig_loads; [|done]. split.
  - intros key f d Hf Hd Hc. pose proof Hf as [Hin _]%fieldByKey_Some.
    assert (is_scalar (Type_ f)) as Hs by (apply config_defaults_scalar; eauto).
    rewrite (loading_scalar Hl key f Hf Hs), Hc. by apply defaulted_zero.
  - intros name p pn key f d Hp Hpn Hf Hd Hc. pose proof Hf as [Hin _]%fieldByKey_Some.
    assert (is_scalar (Type_ f)) as Hs by (apply peer_defaults_scalar; eauto).
    rewrite (loading_peer_scalar Hl name p pn key f Hp Hpn Hf Hs), Hc.
    by apply defaulted_zero.
Qed.

Lemma omitted_field_example :
  example_config.["IRRServer"] = VString "rr.ntt.net"
  ∧ example_config.["RTRPort"] = VInt 8282
  ∧ (peer_of example_config "exchange").["LocalPref"] = VInt 100.
Proof.
  destruct (omitted_field_holds_default in_order example example_config)
    as [Hroot Hpeer].
  - by repeat split.
  - vm_compute. reflexivity.
  - split_and!.
    + with_field "irr-server" main.config ltac:(fun f =>
        apply (Hroot "irr-server" f); evaluate).
    + with_field "rtr-port" main.config ltac:(fun f =>
        apply (Hroot "rtr-port" f); evaluate).
    + with_field "local-pref" main.peer ltac:(fun f =>
      with_child "exchange" (default example (child "peers" example)) ltac:(fun pn =>
        apply (Hpeer "exchange" (peer_of example_config "exchange") pn "local-pref" f);
        evaluate)).
Defined.

(** * Static routes *)

(** C6: after a successful load [Statics4] and [Statics6] are maps, not
    nil; an entry of [Statics] is an entry of one of them, and conversely;
    no prefix is in both; and the prefixes of [Statics4] are IPv4 prefixes,
    those of [Statics6] IPv6 prefixes. *)
Theorem statics_by_family ρ configBlob cfg :
  fair ρ → loadConfig ρ configBlob = Returns (Some cfg) None →
  ∃ statics4 statics6,
    cfg.["Augments"].["Statics4"] = VMap (Some statics4)
    ∧ cfg.["Augments"].["Statics6"] = VMap (Some statics6)
    ∧ (∀ prefix nexthop,
         map_of cfg.["Augments"].["Statics"] !! prefix = Some nexthop ↔
         statics4 !! prefix = Some nexthop ∨ statics6 !! prefix = Some nexthop)
    ∧ statics4 ##ₘ statics6
    ∧ (∀ prefix, is_Some (statics4 !! prefix) → is_IPv4 prefix)
    ∧ (∀ prefix, is_Some (statics6 !! prefix) → is_IPv6 prefix).
Proof.
  intros Hfair (root & c0 & c1 & c3 & -> & Hl)%loadConfig_loads; [|done].
  destruct (loading_Statics Hl) as (-> & -> & ->).
  pose proof (static_routes_parsed _ _ _ _ _ Hl) as Hok.
  eexists _, _. split_and!; [done | done | | | |].
  - intros prefix nexthop. rewrite !map_lookup_filter_Some. cbn [fst].
    split; [|tauto]. intros Hin.
    destruct (Hok _ _ Hin) as [Hp _]. apply family_total in Hp. tauto.
  - apply map_disjoint_spec. intros prefix x y.
    rewrite !map_lookup_filter_Some. cbn [fst].
    intros [_ H4] [_ H6]. by eapply family_exclusive.
  - intros prefix [x Hx]. by apply map_lookup_filter_Some in Hx as [_ ?].
  - intros prefix [x Hx]. by apply map_lookup_filter_Some in Hx as [_ ?].
Qed.

Lemma statics_by_family_example :
  ∃ statics4 statics6,
    example_config.["Augments"].["Statics4"] = VMap (Some statics4)
    ∧ example_config.["Augments"].["Statics6"] = VMap (Some statics6)
    ∧ (∀ prefix nexthop,
         map_of example_config.["Augments"].["Statics"] !! prefix = Some nexthop ↔
         statics4 !! prefix = Some nexthop ∨ statics6 !! prefix = Some nexthop)
    ∧ statics4 ##ₘ statics6
    ∧ (∀ prefix, is_Some (statics4 !! prefix) → is_IPv4 prefix)
    ∧ (∀ prefix, is_Some (statics6 !! prefix) → is_IPv6 prefix).
Proof.
  apply (statics_by_family in_order (yaml.Document example)).
  - by repeat split.
  - vm_compute. reflexivity.
Defined.

(** * Keys without a field *)

Section errors.
Variable dec : rtype → yaml.node → yaml.decoded.

Lemma sequence_errors et cs :
  Exists (λ c, (dec et c).2 ≠ []) cs → (yaml.sequence dec et cs).2 ≠ [].
Proof.
  induction cs as [|c cs IH]; [by intros ?%Exists_nil|].
  intros Hex. simpl. destruct (dec et c) as [[e ok] errs1] eqn:Hc.
  destruct (yaml.sequence dec et cs) as [es errs2]. simpl in *.
  apply Exists_cons in Hex as [Hc'|Hcs].
  - rewrite Hc in Hc'. simpl in Hc'. by destruct errs1.
  - intros [_ ?]%app_eq_nil. by apply IH.
Qed.

Lemma mappingStruct_errors name fs cs : ∀ out doneFields,
  Exists (λ kc, match yaml.fieldByKey kc.1 fs with
                | Some f => (dec (Type_ f) kc.2).2 ≠ []
                | None => True
                end) cs →
  (yaml.mappingStruct dec name fs cs out doneFields).2 ≠ [].
Proof.
  induction cs as [|[key c] cs IH]; intros out doneFields; [by intros ?%Exists_nil|].
  intros Hex. apply Exists_cons in Hex. cbn [fst snd] in Hex. simpl.
  destruct (yaml.fieldByKey key fs) as [f|].
  - case_decide.
    + by destruct (yaml.mappingStruct dec name fs cs out doneFields).
    + destruct (dec (Type_ f) c) as [[v ok] errs1].
      specialize (IH (update (Name f) v out) (Name f :: doneFields)).
      destruct (yaml.mappingStruct dec name fs cs _ _) as [out' errs2]. simpl in *.
      destruct Hex as [Hc|Hcs]; [by destruct errs1|].
      intros [_ ?]%app_eq_nil. by apply IH.
  - by destruct (yaml.mappingStruct dec name fs cs out doneFields).
Qed.

Lemma mapping_errors et cs : ∀ out,
  Exists (λ kc, (dec et kc.2).2 ≠ []) cs → (yaml.mapping dec et cs out).2 ≠ [].
Proof.
  induction cs as [|[key c] cs IH]; intros out; [by intros ?%Exists_nil|].
  intros Hex. apply Exists_cons in Hex. cbn [snd] in Hex. simpl.
  destruct (dec et c) as [[e ok] errs1]. simpl in Hex.
  assert (∀ out', errs1 ++ (yaml.mapping dec et cs out').2 ≠ []) as Hne.
  { intros out'. destruct Hex as [Hc|Hcs]; [by destruct errs1|].
    intros [_ ?]%app_eq_nil. by eapply IH. }
  destruct ok.
  - destruct (out !! key).
    + destruct (yaml.mapping dec et cs out) as [out' errs2]. simpl.
      by destruct errs1.
    + specialize (Hne (<[key:=e]> out)).
      by destruct (yaml.mapping dec et cs (<[key:=e]> out)).
  - specialize (Hne out). by destruct (yaml.mapping dec et cs out).
Qed.
End errors.

(** A document with a key that has no field does not decode without
    errors. *)
Lemma undeclared_key_errors n : ∀ t,
  has_undeclared_key t n → (yaml.unmarshal t n).2 ≠ [].
Proof.
  induction n as [text r|cs IH|cs IH] using node_ind'; intros t; [done| |].
  - cbn [has_undeclared_key yaml.unmarshal].
    destruct (yaml.pointee t) as [| | | | | |et| | |]; try done.
    intros [c [Hin Hc]]%existb_True%Exists_exists.
    pose proof (sequence_errors yaml.unmarshal et cs) as Herr.
    destruct (yaml.sequence yaml.unmarshal et cs) as [items errs]. simpl in *.
    apply Herr, Exists_exists. exists c.
    rewrite Forall_forall in IH. split; [done|]. by apply IH.
  - cbn [has_undeclared_key yaml.unmarshal].
    destruct (yaml.pointee t) as [| | | | | | |et| |name fs]; try done.
    + intros [[key c] [Hin Hc]]%existb_True%Exists_exists.
      pose proof (mapping_errors yaml.unmarshal et cs ∅) as Herr.
      destruct (yaml.mapping yaml.unmarshal et cs ∅) as [out errs]. simpl in *.
      apply Herr, Exists_exists. exists (key, c).
      rewrite Forall_forall in IH. split; [done|]. by apply (IH (key, c)).
    + intros [[key c] [Hin Hc]]%existb_True%Exists_exists.
      pose proof (mappingStruct_errors yaml.unmarshal name fs cs
                    ((λ f, (Name f, Zero (Type_ f))) <$> fs) []) as Herr.
      destruct (yaml.mappingStruct yaml.unmarshal name fs cs _ []) as [out errs]. simpl in *.
      apply Herr, Exists_exists. exists (key, c).
      rewrite Forall_forall in IH. split; [done|]. cbn [fst snd].
      destruct (yaml.fieldByKey key fs) as [f|]; [|done].
      by apply (IH (key, c)).
Qed.

(** What [loadConfig] returns for a document that does not decode without
    errors. *)
Lemma loadConfig_decode_errors ρ root :
  (yaml.unmarshal main.config root).2 ≠ [] →
  loadConfig ρ (yaml.Document root)
  = Returns None (Some ("yaml unmarshal: yaml: unmarshal errors:" +:+ yaml.newline +:+ "  "
                        +:+ yaml.Join (yaml.unmarshal main.config root).2
                              (yaml.newline +:+ "  "))).
Proof.
  intros Herr. unfold loadConfig.
  assert (unmarshal_config (yaml.Document root)
          = Stop (Returns None (Some ("yaml unmarshal: yaml: unmarshal errors:"
                   +:+ yaml.newline +:+ "  "
                   +:+ yaml.Join (yaml.unmarshal main.config root).2
                         (yaml.newline +:+ "  "))))) as ->.
  { unfold unmarshal_config, yaml.UnmarshalStrict.
    destruct (yaml.unmarshal main.config root) as [[out ok] [|e errs]]; done. }
  by rewrite bind_Stop, run_Stop.
Qed.

(** C7: a document with a key, at the top or nested, that has no field in
    the schema is not loaded: [loadConfig] returns no configuration, and
    the error of the decoder. *)
Theorem undeclared_key_rejected ρ root :
  has_undeclared_key main.config root →
  ∃ err, loadConfig ρ (yaml.Document root) = Returns None (Some ("yaml unmarshal: " +:+ err)).
Proof.
  intros Hkey%undeclared_key_errors. eexists. by apply loadConfig_decode_errors.
Qed.

Lemma undeclared_key_example :
  ∃ err, loadConfig in_order (yaml.Document misspelt)
         = Returns None (Some ("yaml unmarshal: " +:+ err)).
Proof.
  apply (undeclared_key_rejected in_order misspelt). vm_compute. exact I.
Defined.

(** * The outcomes *)

(** C8, which the code does not meet: the peer of [null_peer] has no
    value; [loadConfig] neither returns a configuration nor an error, it
    panics in [defaults.Set]. *)
Theorem null_peer_panics :
  loadConfig in_order (yaml.Document null_peer)
  = Panics "reflect: call of reflect.Value.Type on zero Value".
Proof. evaluate. Qed.

(** * The documenter *)

Lemma cut_app c key rest :
  gostrings.cut c key = None →
  gostrings.cut c (key +:+ String c rest) = Some (key, rest).
Proof.
  induction key as [|x key IH]; simpl.
  - by rewrite decide_True.
  - case_decide; [done|]. destruct (gostrings.cut c key) as [[? ?]|]; [done|].
    intros _. by rewrite IH.
Qed.

Lemma first_column_row key type fDefault validation description :
  gostrings.cut "`" key = None →
  first_column (row key type fDefault validation description) = key.
Proof.
  intros Hkey. unfold first_column, row. simpl.
  match goal with
  | |- context [gostrings.cut _ ("" +:+ key +:+ "` | `" +:+ ?s)] =>
      change ("" +:+ key +:+ "` | `" +:+ s) with (key +:+ String "`" (" | `" +:+ s))
  end.
  by rewrite cut_app.
Qed.

(** The rows that the loop of [documentConfigTypes] prints when it runs to
    its end: one for each field whose description is not [-], in the
    order of the fields, with the key of the field in the first column. *)
Lemma document_fields_first_column (doc : rtype → printed) fs :
  Forall (λ f, gostrings.cut "`" (Get "yaml" (Tag f)) = None) fs →
  (document_fields doc fs).2 = Finished →
  first_column <$> (document_fields doc fs).1.1
  = (λ f, Get "yaml" (Tag f)) <$> filter documented fs.
Proof.
  induction fs as [|f fs IH]; [done|].
  intros [Hf Hfs]%Forall_cons. cbn [document_fields]. cbn zeta.
  case_decide as Hd; [done|]. case_decide as Hdash.
  - destruct (document_fields doc fs) as [[rows childTypes] e]. cbn [fst snd] in *.
    intros He. rewrite filter_cons_True by exact Hdash. cbn [fmap list_fmap].
    rewrite first_column_row by done. f_equal. by apply IH.
  - intros He. rewrite filter_cons_False by (intros Hn; by apply Hn). by apply IH.
Qed.

(** C9: [documentConfig] prints the heading of the root table, its rows,
    an empty line, and the tables of the other types; the first column of
    the rows holds the [yaml] keys of the fields of [config] whose
    description is not [-], in the order of the declaration. *)
Theorem documentConfig_first_column :
  ∃ rows rest,
    documentConfig = (heading "config" ++ rows ++ "" :: rest, Finished)
    ∧ first_column <$> rows
      = (λ f, Get "yaml" (Tag f)) <$> filter documented (fields main.config).
Proof.
  exists (document_fields documentConfigTypes (fields main.config)).1.1,
         (in_turn (document_fields documentConfigTypes (fields main.config)).1.2).1.
  split; [evaluate|].
  apply document_fields_first_column; [by_computation | evaluate].
Qed.

(** * The order of the maps *)

(** C10: whether [loadConfig] succeeds, and the configuration it returns
    when it does, do not depend on the order in which the maps are
    visited. *)
Theorem loadConfig_order_independent ρ1 ρ2 configBlob cfg :
  fair ρ1 → fair ρ2 →
  loadConfig ρ1 configBlob = Returns (Some cfg) None ↔
  loadConfig ρ2 configBlob = Returns (Some cfg) None.
Proof. intros H1 H2. by rewrite !loadConfig_loads. Qed.

Lemma loadConfig_order_example :
  loadConfig in_order (yaml.Document example) = Returns (Some example_config) None ↔
  loadConfig reversed (yaml.Document example) = Returns (Some example_config) None.
Proof.
  apply (loadConfig_order_independent in_order reversed).
  - by repeat split.
  - repeat split; intros l; apply reverse_Permutation.
Defined.

